(** * gr-dcu-libcommon: the shared-memory state container and its record layouts

    A shallow embedding of
    - the IPC record layouts (constants, [GpsOption], [DeviceConfig],
      [DeviceConfigTable], [Utils::HasGpsOption]), and
    - the class template [GR::LIBCOMMON::IPC::SharedState<T>]
      (include/common/ipc/shared_state.hpp),
    together with the properties the specification states about them.

    Conventions.  Fixed-width integers are [Z]; a [char] is a [Z] whose only
    observed property is whether it is the terminator 0.  A character
    buffer is a [list Z] updated by index.  POSIX calls are functions on an
    explicit operating-system state; the calls that can fail for reasons
    outside the program take a fault plan saying which of them fail. *)

From Stdlib Require Import ZArith Ascii String Lia.
From stdpp Require Import gmap strings list fin_maps.

Local Open Scope Z_scope.

(* ===================================================================== *)
(** * Record layouts and constants                                        *)
(* ===================================================================== *)

Module Layout.

(** Heartbeat threshold and margin, in milliseconds ([int64_t]). *)
Definition AliveTimeThresholdSound : Z := 5000.
Definition AliveTimeMargin : Z := 500.

Definition SOUND_SHM_NAME : string := "/sound_ipc_shm".
Definition SYSTEM_INIT_TIMELINE_SHM_NAME : string := "/gr_system_init_timeline".
Definition DEVICE_CONFIG_SHM_NAME : string := "/gr_device_config".

(** [enum class GpsOption : uint8_t] *)
Inductive GpsOption : Type :=
| NONE
| USE_RTK
| USE_DR
| IMU_SAVE
| IMU_RESTORE.

(** [static_cast<uint8_t>(target)] *)
Definition GpsOption_value (o : GpsOption) : Z :=
  match o with
  | NONE => 0
  | USE_RTK => Z.shiftl 1 0
  | USE_DR => Z.shiftl 1 1
  | IMU_SAVE => Z.shiftl 1 2
  | IMU_RESTORE => Z.shiftl 1 3
  end.

(** The bit position an enumerator stands for; [NONE] stands for no bit. *)
Definition GpsOption_bit (o : GpsOption) : option Z :=
  match o with
  | NONE => None
  | USE_RTK => Some 0
  | USE_DR => Some 1
  | IMU_SAVE => Some 2
  | IMU_RESTORE => Some 3
  end.

(** [Utils::HasGpsOption] *)
Definition HasGpsOption (currentOptions : Z) (target : GpsOption) : bool :=
  negb (Z.land currentOptions (GpsOption_value target) =? 0).

(** ** Character buffers *)

(** The C string held in a buffer: the characters before the first 0. *)
Fixpoint c_str (buf : list Z) : list Z :=
  match buf with
  | [] => []
  | c :: rest => if c =? 0 then [] else c :: c_str rest
  end.

(** A write [buf[i] = c]; writing outside the buffer is an overflow and is
    reported as [None]. *)
Definition store (buf : list Z) (i : nat) (c : Z) : option (list Z) :=
  if decide (i < length buf)%nat then Some (<[i:=c]> buf) else None.

(** The tail of [strncpy]: [n] terminators written from index [i] on. *)
Fixpoint pad_nul (n i : nat) (dest : list Z) : option (list Z) :=
  match n with
  | O => Some dest
  | S n' =>
      match store dest i 0 with
      | Some dest' => pad_nul n' (S i) dest'
      | None => None
      end
  end.

(** [strncpy(dest + i, src, n)]: exactly [n] characters are written; the
    characters of [src] up to its terminator, then terminators.  [src] is the
    memory the source pointer addresses; the end of the list stands for the
    terminator of the string. *)
Fixpoint strncpy_at (n i : nat) (src dest : list Z) : option (list Z) :=
  match n with
  | O => Some dest
  | S n' =>
      match src with
      | [] => pad_nul n i dest
      | c :: src' =>
          if c =? 0 then pad_nul n i dest
          else
            match store dest i c with
            | Some dest' => strncpy_at n' (S i) src' dest'
            | None => None
            end
      end
  end.

Definition strncpy (dest src : list Z) (n : nat) : option (list Z) :=
  strncpy_at n 0 src dest.

(** The [n] characters [strncpy] writes for a source [src]. *)
Fixpoint strncpy_written (n : nat) (src : list Z) : list Z :=
  match n with
  | O => []
  | S n' =>
      match src with
      | [] => replicate n 0
      | c :: src' =>
          if c =? 0 then replicate n 0 else c :: strncpy_written n' src'
      end
  end.

(** ** [struct DeviceConfig] *)

Record DeviceConfig : Type := mkDeviceConfig {
  port : list Z;            (* char port[32] *)
  baudrate : Z;             (* uint32_t *)
  update_rate_hz : Z;       (* uint16_t *)
  option_ : Z;              (* uint8_t option *)
  type_ : Z;                (* uint8_t type *)
  enabled : bool;
  reserved : list Z         (* uint8_t reserved[4] *)
}.

Definition sizeof_port : nat := 32.
Definition sizeof_reserved : nat := 4.

(** The bytes of a [DeviceConfig] are laid out as declared. *)
Definition DeviceConfig_layout (c : DeviceConfig) : Prop :=
  length (port c) = sizeof_port ∧ length (reserved c) = sizeof_reserved.

(** The default constructor, run over the memory [raw] the object is placed
    in: the members named in the initializer list and [reserved] are set,
    [port[0]] is set, the other characters of [port] keep what the memory
    held. *)
Definition DeviceConfig_ctor (raw : DeviceConfig) : DeviceConfig :=
  {| port := <[0%nat:=0]> (port raw);
     baudrate := 115200;
     update_rate_hz := 10;
     option_ := 0;
     type_ := 1;
     enabled := false;
     reserved := replicate sizeof_reserved 0 |}.

(** [DeviceConfig::setPort] *)
Definition setPort (c : DeviceConfig) (p : list Z) : option DeviceConfig :=
  match strncpy (port c) p (sizeof_port - 1) with
  | Some port1 =>
      match store port1 (sizeof_port - 1) 0 with
      | Some port2 =>
          Some {| port := port2;
                  baudrate := baudrate c;
                  update_rate_hz := update_rate_hz c;
                  option_ := option_ c;
                  type_ := type_ c;
                  enabled := enabled c;
                  reserved := reserved c |}
      | None => None
      end
  | None => None
  end.

(** ** [struct DeviceConfigTable] *)

Record AgentStatus : Type := mkAgentStatus {
  gps_ready : bool;
  imu_ready : bool
}.

Record DeviceConfigTable : Type := mkDeviceConfigTable {
  gps : DeviceConfig;
  imu : DeviceConfig;
  ready : bool;
  status : AgentStatus
}.

(** The default constructor over the memory [raw]: both members are default
    constructed, [ready] is initialised to [false], and the body stores
    [false] into both acknowledgement flags. *)
Definition DeviceConfigTable_ctor (raw : DeviceConfigTable) : DeviceConfigTable :=
  {| gps := DeviceConfig_ctor (gps raw);
     imu := DeviceConfig_ctor (imu raw);
     ready := false;
     status := {| gps_ready := false; imu_ready := false |} |}.

(** Zero-filled memory read as the record, as a fresh shared-memory object
    holds it. *)
Definition DeviceConfig_zero : DeviceConfig :=
  {| port := replicate sizeof_port 0;
     baudrate := 0; update_rate_hz := 0; option_ := 0; type_ := 0;
     enabled := false;
     reserved := replicate sizeof_reserved 0 |}.

Definition DeviceConfigTable_zero : DeviceConfigTable :=
  {| gps := DeviceConfig_zero; imu := DeviceConfig_zero; ready := false;
     status := {| gps_ready := false; imu_ready := false |} |}.

(** [sizeof(DeviceConfigTable)] with the usual alignment: two members of 48
    bytes and three flags, rounded up to a multiple of 4. *)
Definition sizeof_DeviceConfigTable : Z := 100.

End Layout.

(* ===================================================================== *)
(** * Liveness protocol                                                   *)
(* ===================================================================== *)

Module Liveness.

(** Modelled from the spec: the reader-side predicate of the liveness
    protocol; the source holds only the two constants, the comparison is made
    by the readers of the record.  "aliveness = (now − heartbeat) <
    (threshold + margin)". *)
Definition aliveness (threshold margin now heartbeat : Z) : bool :=
  (now - heartbeat) <? (threshold + margin).

(** The predicate with the sound agent's constants. *)
Definition sound_alive (now heartbeat : Z) : bool :=
  aliveness Layout.AliveTimeThresholdSound Layout.AliveTimeMargin now heartbeat.

End Liveness.

(* ===================================================================== *)
(** * The operating system seen by the container                          *)
(* ===================================================================== *)

Module Posix.

Section Objects.

(** The record type hosted in the region, and zero-filled memory read as it. *)
Context {T : Type}.
Variable zeroed : T.

(** A shared-memory object: its size in bytes and its first [sizeof(T)]
    bytes (zero-extended when the object is shorter) read as a [T]. *)
Record shm_object : Type := mkObject {
  obj_size : Z;
  obj_data : T
}.

(** The state of the operating system: the shared-memory name space, the
    objects (which outlive their names while descriptors or mappings refer to
    them), the open descriptors and the mapped addresses.  Descriptors and
    addresses of all processes are kept in one table each; the container only
    tests a descriptor's sign and a pointer against null.  The name space is
    keyed by the string passed to the call.  The C library strips every
    leading slash of a name, so strings that differ only in the number of
    leading slashes denote one object there; the keying is exact for names
    with one leading slash. *)
Record OS : Type := mkOS {
  names : gmap string nat;
  objects : gmap nat shm_object;
  fds : gmap N nat;
  mappings : gmap positive nat
}.

Definition set_names (f : gmap string nat → gmap string nat) (os : OS) : OS :=
  {| names := f (names os); objects := objects os; fds := fds os;
     mappings := mappings os |}.
Definition set_objects (f : gmap nat shm_object → gmap nat shm_object)
    (os : OS) : OS :=
  {| names := names os; objects := f (objects os); fds := fds os;
     mappings := mappings os |}.
Definition set_fds (f : gmap N nat → gmap N nat) (os : OS) : OS :=
  {| names := names os; objects := objects os; fds := f (fds os);
     mappings := mappings os |}.
Definition set_mappings (f : gmap positive nat → gmap positive nat)
    (os : OS) : OS :=
  {| names := names os; objects := objects os; fds := fds os;
     mappings := f (mappings os) |}.

(** Which of the calls that depend on resources outside the program fail
    during one operation of the container. *)
Record faults : Type := mkFaults {
  shm_open_fails : bool;
  ftruncate_fails : bool;
  mmap_fails : bool
}.

Definition no_faults : faults :=
  {| shm_open_fails := false; ftruncate_fails := false; mmap_fails := false |}.

(** [MAP_FAILED] is [(void* )-1]. *)
Definition MAP_FAILED : Z := -1.

(** [shm_unlink(name)]: 0 when the name was linked and is now removed, -1
    (ENOENT) otherwise. *)
Definition shm_unlink (name : string) (os : OS) : Z * OS :=
  match names os !! name with
  | Some _ => (0, set_names (delete name) os)
  | None => (-1, os)
  end.

(** [shm_open(name, oflag, 0666)] with [oflag] either [O_RDWR] or
    [O_CREAT | O_RDWR].  A new object has size 0. *)
Definition shm_open (fl : faults) (name : string) (o_creat : bool) (os : OS)
    : Z * OS :=
  if shm_open_fails fl then (-1, os)
  else
    let fd := fresh (dom (fds os)) in
    match names os !! name with
    | Some id => (Z.of_N fd, set_fds <[fd:=id]> os)
    | None =>
        if o_creat then
          let id := fresh (dom (objects os)) in
          (Z.of_N fd,
           set_fds <[fd:=id]>
             (set_objects <[id:={| obj_size := 0; obj_data := zeroed |}]>
                (set_names <[name:=id]> os)))
        else (-1, os)
    end.

Definition fd_object (fd : Z) (os : OS) : option nat :=
  if fd <? 0 then None else fds os !! Z.to_N fd.

(** [ftruncate(fd, length)].  Growing pads with zero bytes and shrinking to
    [sizeof(T)] keeps the first [sizeof(T)] bytes, so the zero-extended
    reading [obj_data] is the same before and after. *)
Definition ftruncate (fl : faults) (fd : Z) (len : Z) (os : OS) : Z * OS :=
  if ftruncate_fails fl then (-1, os)
  else
    match fd_object fd os with
    | Some id =>
        (0, set_objects
              (alter (λ o, {| obj_size := len; obj_data := obj_data o |}) id) os)
    | None => (-1, os)
    end.

(** [mmap(NULL, len, PROT_READ | PROT_WRITE, MAP_SHARED, fd, 0)]: a fresh,
    non-null address, or [MAP_FAILED]. *)
Definition mmap (fl : faults) (len : Z) (fd : Z) (os : OS) : Z * OS :=
  if mmap_fails fl then (MAP_FAILED, os)
  else
    match fd_object fd os with
    | Some id =>
        let a := fresh (dom (mappings os)) in
        (Z.pos a, set_mappings <[a:=id]> os)
    | None => (MAP_FAILED, os)
    end.

(** [munmap(addr, len)] *)
Definition munmap (addr : Z) (len : Z) (os : OS) : OS :=
  match addr with
  | Z.pos a => set_mappings (delete a) os
  | _ => os
  end.

(** [::close(fd)] *)
Definition close (fd : Z) (os : OS) : OS :=
  if fd <? 0 then os else set_fds (delete (Z.to_N fd)) os.

(** The object mapped at an address. *)
Definition mapped_object (addr : Z) (os : OS) : option nat :=
  match addr with
  | Z.pos a => mappings os !! a
  | _ => None
  end.

(** Reading the record at a mapped address. *)
Definition load (addr : Z) (os : OS) : option T :=
  match mapped_object addr os with
  | Some id => obj_data <$> objects os !! id
  | None => None
  end.

(** Writing the record held by an object. *)
Definition write_object (id : nat) (t : T) (os : OS) : OS :=
  set_objects (alter (λ o, {| obj_size := obj_size o; obj_data := t |}) id) os.

Definition empty_OS : OS :=
  {| names := ∅; objects := ∅; fds := ∅; mappings := ∅ |}.

(** The operating system once a new object of the given size and content is
    linked under [n]; the object is the one [shm_open] picks. *)
Definition os_allocated (n : string) (size : Z) (t : T) (os : OS) : OS :=
  {| names := <[n:=fresh (dom (objects os))]> (names os);
     objects :=
       <[fresh (dom (objects os)):={| obj_size := size; obj_data := t |}]>
         (objects os);
     fds := fds os;
     mappings := mappings os |}.

End Objects.

Arguments shm_object : clear implicits.
Arguments OS : clear implicits.

End Posix.

(* ===================================================================== *)
(** * [template<typename T> class SharedState]                            *)
(* ===================================================================== *)

Module IPC.

(** What the container prints ([std::cout] and [std::cerr]); the text of
    [strerror(errno)] is left out. *)
Inductive message : Type :=
| InvalidName (name : string)
| ShmOpenFailed
| FtruncateFailed
| InternalError (what : string)
| Created (name : string)
| Opened (name : string)
| CreateException
| OpenException
| MemoryUnlinked (name : string)
| UnlinkFailed (name : string).

(** What one operation does, in order: the system calls with their
    arguments and results, the in-place construction, and the output. *)
Inductive event : Type :=
| Sys_shm_unlink (name : string) (ret : Z)
| Sys_shm_open (name : string) (o_creat : bool) (ret : Z)
| Sys_ftruncate (fd len ret : Z)
| Sys_mmap (len fd ret : Z)
| Sys_munmap (addr len : Z)
| Sys_close (fd : Z)
| PlacementNew (addr : Z)
| Cout (m : message)
| Cerr (m : message).

(** The outcome of running [T()] over a piece of memory: the constructor
    returns, or it throws an exception of a class derived from
    [std::exception], the kind the handlers of [create] and [open] catch;
    either way it leaves the memory in some state.  A constructor that throws
    anything else is outside this model: such an exception is not caught and
    leaves [create] without a result. *)
Inductive ctor_result (T : Type) : Type :=
| Constructed (t : T)
| Threw (partial : T).
Arguments Constructed {T} t.
Arguments Threw {T} partial.

(** The data members. [data_ptr_] is an address, 0 for [nullptr]. *)
Record SharedState : Type := mkSharedState {
  shm_fd_ : Z;
  data_ptr_ : Z;
  is_owner_ : bool;
  shm_name_ : string
}.

(** [SharedState()] *)
Definition SharedState_new : SharedState :=
  {| shm_fd_ := -1; data_ptr_ := 0; is_owner_ := false; shm_name_ := "" |}.

Definition with_shm_fd (v : Z) (h : SharedState) : SharedState :=
  {| shm_fd_ := v; data_ptr_ := data_ptr_ h; is_owner_ := is_owner_ h;
     shm_name_ := shm_name_ h |}.
Definition with_data_ptr (v : Z) (h : SharedState) : SharedState :=
  {| shm_fd_ := shm_fd_ h; data_ptr_ := v; is_owner_ := is_owner_ h;
     shm_name_ := shm_name_ h |}.
Definition with_is_owner (v : bool) (h : SharedState) : SharedState :=
  {| shm_fd_ := shm_fd_ h; data_ptr_ := data_ptr_ h; is_owner_ := v;
     shm_name_ := shm_name_ h |}.
Definition with_shm_name (v : string) (h : SharedState) : SharedState :=
  {| shm_fd_ := shm_fd_ h; data_ptr_ := data_ptr_ h; is_owner_ := is_owner_ h;
     shm_name_ := v |}.

(** [std::string::empty] and [operator[]] ([s[size()]] is the terminator). *)
Definition str_empty (s : string) : bool := (String.length s =? 0)%nat.
Definition str_at (s : string) (i : nat) : ascii :=
  match String.get i s with
  | Some c => c
  | None => Ascii.zero
  end.

(** [std::string::c_str] as a C function reads it: the characters before the
    first terminator. *)
Fixpoint c_str (s : string) : string :=
  match s with
  | EmptyString => EmptyString
  | String c rest =>
      if Ascii.eqb c Ascii.zero then EmptyString else String c (c_str rest)
  end.

(** A name the container accepts: not empty, and its first character is the
    separator. *)
Definition valid_name (name : string) : Prop :=
  name ≠ EmptyString ∧ String.get 0 name = Some "/"%char.

(** The calls a client makes on one container, and how a container last got
    attached. *)
Inductive call : Type :=
| Create (fl : Posix.faults) (name : string)
| Open (fl : Posix.faults) (name : string)
| Close.

Inductive attach_kind : Type :=
| ByCreate
| ByOpen.

(** The last successful attach in a history of calls and their results. *)
Fixpoint last_attach_from (acc : option attach_kind)
    (hist : list (call * bool)) : option attach_kind :=
  match hist with
  | [] => acc
  | (Create _ _, true) :: rest => last_attach_from (Some ByCreate) rest
  | (Open _ _, true) :: rest => last_attach_from (Some ByOpen) rest
  | _ :: rest => last_attach_from acc rest
  end.

Definition last_attach (hist : list (call * bool)) : option attach_kind :=
  last_attach_from None hist.

Section Container.

Context {T : Type}.
Variable sizeof_T : Z.
Variable zeroed : T.
Variable construct : T → ctor_result T.

(** ** A state and output monad for the member functions *)

(** A member function runs on the object and the operating system and
    yields a value, the new state and the events it caused. *)
Definition M (A : Type) : Type :=
  SharedState * Posix.OS T → A * (SharedState * Posix.OS T) * list event.

Definition ret {A} (a : A) : M A := λ s, (a, s, []).

Definition bind {A B} (m : M A) (k : A → M B) : M B :=
  λ s, let '(a, s1, e1) := m s in
       let '(b, s2, e2) := k a s1 in
       (b, s2, e1 ++ e2).

Notation "'do' x <- m ; k" := (bind m (λ x, k))
  (at level 10, x name, m at level 100, k at level 200).
Notation "m ;; k" := (bind m (λ _, k))
  (at level 100, k at level 200, right associativity).

Definition this : M SharedState := λ s, (s.1, s, []).
Definition assign (f : SharedState → SharedState) : M unit :=
  λ s, (tt, (f s.1, s.2), []).
Definition emit (e : event) : M unit := λ s, (tt, s, [e]).

(** A system call with a result, and the event recording it. *)
Definition syscall {A} (f : Posix.OS T → A * Posix.OS T) (ev : A → event)
    : M A :=
  λ s, let '(a, os) := f s.2 in (a, (s.1, os), [ev a]).
(** A system call whose result is not looked at. *)
Definition syscall_ (f : Posix.OS T → Posix.OS T) (ev : event) : M unit :=
  λ s, (tt, (s.1, f s.2), [ev]).

(** ** Private member functions *)

Definition validateName (name : string) : M bool :=
  if str_empty name || negb (Ascii.eqb (str_at name 0) "/") then
    emit (Cerr (InvalidName name)) ;; ret false
  else ret true.

Definition cleanup : M unit :=
  do h <- this;
  (if negb (data_ptr_ h =? 0) then
     syscall_ (Posix.munmap (data_ptr_ h) sizeof_T)
              (Sys_munmap (data_ptr_ h) sizeof_T) ;;
     assign (with_data_ptr 0)
   else ret tt) ;;
  do h <- this;
  (if shm_fd_ h >=? 0 then
     syscall_ (Posix.close (shm_fd_ h)) (Sys_close (shm_fd_ h)) ;;
     assign (with_shm_fd (-1))
   else ret tt) ;;
  do h <- this;
  if is_owner_ h && negb (str_empty (shm_name_ h)) then
    do r <- syscall (Posix.shm_unlink (c_str (shm_name_ h)))
                    (Sys_shm_unlink (c_str (shm_name_ h)));
    if r =? 0 then emit (Cout (MemoryUnlinked (shm_name_ h)))
    else emit (Cerr (UnlinkFailed (shm_name_ h)))
  else ret tt.

Definition handleInternalError (msg : string) : M bool :=
  emit (Cerr (InternalError msg)) ;;
  cleanup ;;
  ret false.

Definition mapMemory (fl : Posix.faults) : M bool :=
  do h <- this;
  do ptr <- syscall (Posix.mmap fl sizeof_T (shm_fd_ h))
                    (Sys_mmap sizeof_T (shm_fd_ h));
  if ptr =? Posix.MAP_FAILED then handleInternalError "mmap"
  else
    assign (with_data_ptr ptr) ;;
    ret true.

(** [new (data_ptr_) T()]: the constructor runs over the bytes of the object
    mapped at [data_ptr_].  The result says whether it threw (a
    [std::exception], see [ctor_result]). *)
Definition placement_new : M bool :=
  λ s,
    let '(h, os) := s in
    match Posix.mapped_object (data_ptr_ h) os with
    | Some id =>
        match Posix.objects os !! id with
        | Some o =>
            match construct (Posix.obj_data o) with
            | Constructed t =>
                (false, (h, Posix.write_object id t os),
                 [PlacementNew (data_ptr_ h)])
            | Threw t =>
                (true, (h, Posix.write_object id t os),
                 [PlacementNew (data_ptr_ h)])
            end
        | None => (false, s, [PlacementNew (data_ptr_ h)])
        end
    | None => (false, s, [PlacementNew (data_ptr_ h)])
    end.

(** ** Public member functions *)

Definition create (fl : Posix.faults) (shm_name : string) : M bool :=
  do valid <- validateName shm_name;
  if negb valid then ret false
  else
    assign (with_shm_name shm_name) ;;
    do h <- this;
    syscall (Posix.shm_unlink (c_str (shm_name_ h)))
            (Sys_shm_unlink (c_str (shm_name_ h))) ;;
    do fd <- syscall (Posix.shm_open zeroed fl (c_str (shm_name_ h)) true)
                     (Sys_shm_open (c_str (shm_name_ h)) true);
    assign (with_shm_fd fd) ;;
    if fd <? 0 then
      emit (Cerr ShmOpenFailed) ;; ret false
    else
      do r <- syscall (Posix.ftruncate fl fd sizeof_T)
                      (Sys_ftruncate fd sizeof_T);
      if r <? 0 then
        emit (Cerr FtruncateFailed) ;;
        syscall_ (Posix.close fd) (Sys_close fd) ;;
        assign (with_shm_fd (-1)) ;;
        ret false
      else
        do mapped <- mapMemory fl;
        if negb mapped then ret false
        else
          do h1 <- this;
          do threw <- (if negb (data_ptr_ h1 =? 0) then placement_new
                       else ret false);
          if threw then
            emit (Cerr CreateException) ;;
            cleanup ;;
            ret false
          else
            assign (with_is_owner true) ;;
            emit (Cout (Created (shm_name_ h1))) ;;
            ret true.

Definition open (fl : Posix.faults) (shm_name : string) : M bool :=
  do valid <- validateName shm_name;
  if negb valid then ret false
  else
    assign (with_shm_name shm_name) ;;
    do h <- this;
    do fd <- syscall (Posix.shm_open zeroed fl (c_str (shm_name_ h)) false)
                     (Sys_shm_open (c_str (shm_name_ h)) false);
    assign (with_shm_fd fd) ;;
    if fd <? 0 then
      emit (Cerr ShmOpenFailed) ;; ret false
    else
      do mapped <- mapMemory fl;
      if negb mapped then ret false
      else
        assign (with_is_owner false) ;;
        emit (Cout (Opened (shm_name_ h))) ;;
        ret true.

(** [close()], and the destructor, which has the same body. *)
Definition close : M unit := cleanup.
Definition destroy : M unit := cleanup.

Definition isInitialized (h : SharedState) : bool := negb (data_ptr_ h =? 0).

(** [data()] and [operator->] hand out [data_ptr_]; [operator*] reads the
    record behind it. *)
Definition data (h : SharedState) : Z := data_ptr_ h.
Definition deref (h : SharedState) (os : Posix.OS T) : option T :=
  Posix.load (data_ptr_ h) os.

(** ** Closed forms of [cleanup] *)

(** The data members after [cleanup]. *)
Definition cleanup_handle (h : SharedState) : SharedState :=
  {| shm_fd_ := if shm_fd_ h >=? 0 then -1 else shm_fd_ h;
     data_ptr_ := 0;
     is_owner_ := is_owner_ h;
     shm_name_ := shm_name_ h |}.

(** The operating system after [cleanup]. *)
Definition cleanup_os (h : SharedState) (os : Posix.OS T) : Posix.OS T :=
  let os1 := if negb (data_ptr_ h =? 0)
             then Posix.munmap (data_ptr_ h) sizeof_T os else os in
  let os2 := if shm_fd_ h >=? 0 then Posix.close (shm_fd_ h) os1 else os1 in
  if is_owner_ h && negb (str_empty (shm_name_ h))
  then (Posix.shm_unlink (c_str (shm_name_ h)) os2).2
  else os2.

(** ** Reading a run *)

(** [wp m s Q]: the run of [m] from [s] ends with a value, a state and
    events that satisfy [Q]. *)
Definition wp {A} (m : M A) (s : SharedState * Posix.OS T)
    (Q : A → SharedState * Posix.OS T → list event → Prop) : Prop :=
  let '(a, s', e) := m s in Q a s' e.

(** ** Histories of one container *)

(** One call; [close()] returns nothing and counts as done. *)
Definition exec (c : call) : M bool :=
  match c with
  | Create fl name => create fl name
  | Open fl name => open fl name
  | Close => close ;; ret true
  end.

(** The states a container goes through from its construction, with the
    calls made on it and their results.  Between two calls the operating
    system may have changed in any way (other processes run). *)
Inductive reachable : list (call * bool) → SharedState → Prop :=
| reachable_new : reachable [] SharedState_new
| reachable_call hist h c os r h' os' evs :
    reachable hist h →
    exec c (h, os) = (r, (h', os'), evs) →
    reachable (hist ++ [(c, r)]) h'.

(** A container that holds no mapping, no descriptor and no ownership, as a
    newly constructed one. *)
Definition unattached (h : SharedState) : Prop :=
  shm_fd_ h = -1 ∧ data_ptr_ h = 0 ∧ is_owner_ h = false.

End Container.

(** ** The container of the device configuration table *)

Definition DeviceConfigTable_construct (raw : Layout.DeviceConfigTable)
    : ctor_result Layout.DeviceConfigTable :=
  Constructed (Layout.DeviceConfigTable_ctor raw).

Definition DeviceConfigTable_create :=
  create Layout.sizeof_DeviceConfigTable Layout.DeviceConfigTable_zero
    DeviceConfigTable_construct.

Definition DeviceConfigTable_open :=
  @open Layout.DeviceConfigTable Layout.sizeof_DeviceConfigTable
    Layout.DeviceConfigTable_zero.

Definition DeviceConfigTable_close :=
  @close Layout.DeviceConfigTable Layout.sizeof_DeviceConfigTable.

(** Runs on a system without shared memory: the controller's [create] of
    the device configuration when nothing fails, an agent's [open] after it,
    and a [create] whose [ftruncate], respectively [mmap], fails. *)
Definition sized_fails : Posix.faults :=
  {| Posix.shm_open_fails := false; Posix.ftruncate_fails := true;
     Posix.mmap_fails := false |}.
Definition map_fails : Posix.faults :=
  {| Posix.shm_open_fails := false; Posix.ftruncate_fails := false;
     Posix.mmap_fails := true |}.

Definition created :=
  DeviceConfigTable_create Posix.no_faults Layout.DEVICE_CONFIG_SHM_NAME
    (SharedState_new, Posix.empty_OS).
Definition opened :=
  DeviceConfigTable_open Posix.no_faults Layout.DEVICE_CONFIG_SHM_NAME
    (SharedState_new, created.1.2.2).
Definition unsized :=
  DeviceConfigTable_create sized_fails Layout.DEVICE_CONFIG_SHM_NAME
    (SharedState_new, Posix.empty_OS).
Definition unmapped :=
  DeviceConfigTable_create map_fails Layout.DEVICE_CONFIG_SHM_NAME
    (SharedState_new, Posix.empty_OS).

End IPC.

(* ===================================================================== *)
(** * Access to the record through a container                            *)
(* ===================================================================== *)

Module Access.

Export IPC.

(** Equality of option enumerators is decidable. *)
#[global] Instance GpsOption_eq_dec : EqDecision Layout.GpsOption.
Proof. solve_decision. Defined.

Section Access.

Context {T : Type}.

(** A member store through [operator->] or [operator*], as in
    [shm->member.store(v)]: the update [f] applied to the record behind
    [data_ptr_].  There is no result when the pointer is null or addresses no
    mapped object (the source dereferences it unchecked). *)
Definition store_through (h : SharedState) (f : T → T) (os : Posix.OS T)
    : option (Posix.OS T) :=
  match Posix.mapped_object (data_ptr_ h) os with
  | Some id =>
      match Posix.objects os !! id with
      | Some o => Some (Posix.write_object id (f (Posix.obj_data o)) os)
      | None => None
      end
  | None => None
  end.

(** A name with exactly one leading slash, the form in which the C library
    keeps shared-memory names: two such names denote one object only when
    they are equal. *)
Definition single_slash (n : string) : Prop :=
  ∃ rest, n = String "/"%char rest ∧ String.get 0 rest ≠ Some "/"%char.

(** The container holds the descriptor [fd] and the mapping [a] of the
    object [id]. *)
Definition attached_to (h : SharedState) (fd : N) (a : positive) (id : nat)
    (os : Posix.OS T) : Prop :=
  shm_fd_ h = Z.of_N fd ∧ data_ptr_ h = Z.pos a ∧
  Posix.fds os !! fd = Some id ∧ Posix.mappings os !! a = Some id.

End Access.

(** ** Runs of the device configuration container *)

(** The controller's [ready.store(true)]. *)
Definition publish (t : Layout.DeviceConfigTable) : Layout.DeviceConfigTable :=
  {| Layout.gps := Layout.gps t; Layout.imu := Layout.imu t;
     Layout.ready := true; Layout.status := Layout.status t |}.

(** The owner closes while the agent is attached. *)
Definition owner_closed :=
  DeviceConfigTable_close (created.1.2.1, opened.1.2.2).

(** A second container creates the name again; then the first is closed. *)
Definition recreated :=
  DeviceConfigTable_create Posix.no_faults Layout.DEVICE_CONFIG_SHM_NAME
    (SharedState_new, created.1.2.2).
Definition first_owner_closed :=
  DeviceConfigTable_close (created.1.2.1, recreated.1.2.2).

(** A second [create] of the name whose [ftruncate] fails. *)
Definition recreate_unsized :=
  DeviceConfigTable_create sized_fails Layout.DEVICE_CONFIG_SHM_NAME
    (SharedState_new, created.1.2.2).

(** The owner opens its own name again, and is closed. *)
Definition reopened :=
  DeviceConfigTable_open Posix.no_faults Layout.DEVICE_CONFIG_SHM_NAME
    (created.1.2.1, created.1.2.2).
Definition reopened_closed :=
  DeviceConfigTable_close (reopened.1.2.1, reopened.1.2.2).

(** The owner tries to open a name that does not exist, and is closed. *)
Definition other_open_failed :=
  DeviceConfigTable_open Posix.no_faults Layout.SOUND_SHM_NAME
    (created.1.2.1, created.1.2.2).
Definition other_open_failed_closed :=
  DeviceConfigTable_close (other_open_failed.1.2.1, other_open_failed.1.2.2).

(** The agent and, on its own, the owner are closed. *)
Definition opened_closed :=
  DeviceConfigTable_close (opened.1.2.1, opened.1.2.2).
Definition created_closed :=
  DeviceConfigTable_close (created.1.2.1, created.1.2.2).

End Access.

(* ===================================================================== *)
(** * [template <typename T> class SafeQueue]                             *)
(* ===================================================================== *)

Module SafeQueue.

Section Queue.

Context {T : Type}.

(** [T{}], what [pop] returns from a stopped, empty queue. *)
Variable T_default : T.

(** The members guarded by [mutex_].  Every member function holds the
    mutex while it reads or writes them, so each call acts on them in one
    step. *)
Record SafeQueue : Type := mkSafeQueue {
  queue_ : list T;
  running_ : bool
}.

(** A new queue: empty, [running_ = true]. *)
Definition SafeQueue_new : SafeQueue :=
  {| queue_ := []; running_ := true |}.

(** [std::queue::empty] *)
Definition empty (q : list T) : bool :=
  match q with
  | [] => true
  | _ :: _ => false
  end.

(** [push(item)] *)
Definition push (item : T) (q : SafeQueue) : SafeQueue :=
  {| queue_ := queue_ q ++ [item]; running_ := running_ q |}.

(** [pop()].  The wait on [cond_] ends once the queue is not empty or the
    queue is stopped; until then the caller gets no result ([None]). *)
Definition pop (q : SafeQueue) : option (T * SafeQueue) :=
  if negb (empty (queue_ q)) || negb (running_ q) then
    match queue_ q with
    | [] => Some (T_default, q)
    | item :: rest => Some (item, {| queue_ := rest; running_ := running_ q |})
    end
  else None.

(** [stop()] *)
Definition stop (q : SafeQueue) : SafeQueue :=
  {| queue_ := queue_ q; running_ := false |}.

(** [items] pushed one after the other. *)
Definition push_all (items : list T) (q : SafeQueue) : SafeQueue :=
  foldl (λ q item, push item q) q items.

(** [n] calls of [pop] by one consumer: the results in order, or [None] when
    one of the calls is left waiting. *)
Fixpoint pop_n (n : nat) (q : SafeQueue) : option (list T * SafeQueue) :=
  match n with
  | O => Some ([], q)
  | S n' =>
      match pop q with
      | Some (item, q') =>
          match pop_n n' q' with
          | Some (items, q'') => Some (item :: items, q'')
          | None => None
          end
      | None => None
      end
  end.

End Queue.

Arguments SafeQueue : clear implicits.

End SafeQueue.

(* ===================================================================== *)
(** * Properties of the record layouts                                    *)
(* ===================================================================== *)

Module LayoutFacts.
Import Layout.

(** ** Option flags *)

Lemma land_pow2_eqb (c k : Z) :
  0 ≤ k → (Z.land c (2 ^ k) =? 0) = negb (Z.testbit c k).
Proof.
  intros Hk.
  assert (Hland : Z.land c (2 ^ k) = if Z.testbit c k then 2 ^ k else 0).
  { apply Z.bits_inj'. intros n Hn.
    rewrite Z.land_spec, Z.pow2_bits_eqb by lia.
    destruct (Z.eqb_spec k n) as [->|Hne].
    - destruct (Z.testbit c n) eqn:E; simpl.
      + rewrite Z.pow2_bits_eqb by lia. now rewrite Z.eqb_refl.
      + now rewrite Z.bits_0.
    - rewrite andb_false_r.
      destruct (Z.testbit c k).
      + rewrite Z.pow2_bits_eqb by lia. symmetry. now apply Z.eqb_neq.
      + now rewrite Z.bits_0. }
  rewrite Hland. destruct (Z.testbit c k); simpl.
  - apply Z.eqb_neq. pose proof (Z.pow_pos_nonneg 2 k). lia.
  - reflexivity.
Qed.

Lemma GpsOption_bit_value (o : GpsOption) (k : Z) :
  GpsOption_bit o = Some k → 0 ≤ k ∧ GpsOption_value o = 2 ^ k.
Proof. destruct o; intros [= <-]; split; (lia || reflexivity). Qed.

(** C10. [HasGpsOption] answers [true] exactly when the enumerator stands
    for a bit and that bit of [currentOptions] is set: bit 0 for [USE_RTK],
    bit 1 for [USE_DR], bit 2 for [IMU_SAVE], bit 3 for [IMU_RESTORE].  The
    enumerator's value is the mask of its bit, and 0 for [NONE], which is
    never reported present. *)
Theorem HasGpsOption_iff_bit (currentOptions : Z) (target : GpsOption) :
  (HasGpsOption currentOptions target = true ↔
     ∃ k, GpsOption_bit target = Some k ∧ Z.testbit currentOptions k = true)
  ∧ GpsOption_value target
    = match GpsOption_bit target with Some k => 2 ^ k | None => 0 end
  ∧ HasGpsOption currentOptions NONE = false
  ∧ HasGpsOption currentOptions USE_RTK = Z.testbit currentOptions 0
  ∧ HasGpsOption currentOptions USE_DR = Z.testbit currentOptions 1
  ∧ HasGpsOption currentOptions IMU_SAVE = Z.testbit currentOptions 2
  ∧ HasGpsOption currentOptions IMU_RESTORE = Z.testbit currentOptions 3.
Proof.
  assert (Hbits : ∀ o k, GpsOption_bit o = Some k →
                         HasGpsOption currentOptions o
                         = Z.testbit currentOptions k).
  { intros o k Hbit. unfold HasGpsOption.
    destruct (GpsOption_bit_value _ _ Hbit) as [Hk ->].
    by rewrite land_pow2_eqb, negb_involutive. }
  assert (Hnone : HasGpsOption currentOptions NONE = false).
  { unfold HasGpsOption. cbn [GpsOption_value]. by rewrite Z.land_0_r. }
  split_and!.
  - split.
    + intros H. destruct (GpsOption_bit target) as [k|] eqn:Hbit.
      * exists k. split; [done|]. by rewrite <- (Hbits _ _ Hbit).
      * destruct target; try discriminate Hbit. congruence.
    + intros (k & Hbit & Htest). by rewrite (Hbits _ _ Hbit).
  - by destruct target.
  - exact Hnone.
  - by apply Hbits.
  - by apply Hbits.
  - by apply Hbits.
  - by apply Hbits.
Qed.

(** ** Character buffers *)

Lemma length_strncpy_written n src : length (strncpy_written n src) = n.
Proof.
  revert src. induction n as [|n IH]; intros src; [done|].
  destruct src as [|c src]; simpl.
  - by rewrite length_replicate.
  - destruct (c =? 0); simpl; [by rewrite length_replicate | by rewrite IH].
Qed.

Lemma c_str_strncpy_written n src :
  c_str (strncpy_written n src ++ [0]) = take n (c_str src).
Proof.
  revert src. induction n as [|n IH]; intros src; [done|].
  destruct src as [|c src]; simpl; [done|].
  destruct (c =? 0) eqn:E; simpl; [done|].
  by rewrite E, IH.
Qed.

Lemma store_middle pre x mid post c :
  store (pre ++ (x :: mid) ++ post) (length pre) c
  = Some ((pre ++ [c]) ++ mid ++ post).
Proof.
  unfold store. rewrite decide_True by (rewrite length_app; simpl; lia).
  f_equal. rewrite <- (Nat.add_0_r (length pre)) at 1.
  rewrite insert_app_r. simpl. by rewrite <- app_assoc.
Qed.

Lemma pad_nul_spec n pre mid post :
  length mid = n →
  pad_nul n (length pre) (pre ++ mid ++ post)
  = Some (pre ++ replicate n 0 ++ post).
Proof.
  revert pre mid. induction n as [|n IH]; intros pre mid Hlen.
  - destruct mid; [done | discriminate].
  - destruct mid as [|x mid]; [discriminate|]. simpl in Hlen.
    cbn [pad_nul]. rewrite store_middle.
    replace (S (length pre)) with (length (pre ++ [0]))
      by (rewrite length_app; simpl; lia).
    rewrite IH by lia. by rewrite <- app_assoc.
Qed.

Lemma strncpy_at_spec n src pre mid post :
  length mid = n →
  strncpy_at n (length pre) src (pre ++ mid ++ post)
  = Some (pre ++ strncpy_written n src ++ post).
Proof.
  revert src pre mid. induction n as [|n IH]; intros src pre mid Hlen.
  - destruct mid; [done | discriminate].
  - destruct src as [|c src].
    + by apply pad_nul_spec.
    + cbn [strncpy_at strncpy_written].
      destruct (c =? 0); [by apply pad_nul_spec|].
      destruct mid as [|x mid]; [discriminate|]. simpl in Hlen.
      rewrite store_middle.
      replace (S (length pre)) with (length (pre ++ [c]))
        by (rewrite length_app; simpl; lia).
      rewrite IH by lia. by rewrite <- app_assoc.
Qed.

(** The closed form of [setPort] on a buffer of the declared size. *)
Lemma setPort_spec (c : DeviceConfig) (p : list Z) :
  length (port c) = sizeof_port →
  setPort c p =
    Some {| port := strncpy_written (sizeof_port - 1) p ++ [0];
            baudrate := baudrate c; update_rate_hz := update_rate_hz c;
            option_ := option_ c; type_ := type_ c; enabled := enabled c;
            reserved := reserved c |}.
Proof.
  intros Hlen. unfold setPort, strncpy.
  destruct (port c) as [|x l] eqn:Hp using rev_ind; [discriminate|].
  clear IHl. rewrite length_app in Hlen. simpl in Hlen.
  change (sizeof_port - 1)%nat with 31%nat in *. unfold sizeof_port in Hlen.
  pose proof (strncpy_at_spec 31 p [] l [x] ltac:(lia)) as H.
  change (strncpy_at 31 0 p (l ++ [x])
          = Some (strncpy_written 31 p ++ [x])) in H.
  rewrite H.
  unfold store. rewrite length_app, length_strncpy_written.
  rewrite decide_True by (simpl; lia).
  do 2 f_equal.
  replace 31%nat with (length (strncpy_written 31 p) + 0)%nat at 1
    by (rewrite length_strncpy_written; lia).
  by rewrite insert_app_r.
Qed.

Lemma length_c_str_le buf : (length (c_str buf) ≤ length buf)%nat.
Proof.
  induction buf as [|c buf IH]; simpl; [lia|].
  destruct (c =? 0); simpl; lia.
Qed.

(** C8. On a [DeviceConfig] whose [port] has its 32 bytes, [setPort] makes
    no write outside the buffer (the call yields a result), leaves the buffer
    32 bytes long with a terminator in its last byte, stores the first 31
    characters of the input string, which is the whole string when it has at
    most 31 characters, and changes no other member. *)
Theorem setPort_within_buffer (c : DeviceConfig) (p : list Z) :
  length (port c) = sizeof_port →
  ∃ c', setPort c p = Some c' ∧
        length (port c') = sizeof_port ∧
        port c' !! 31%nat = Some 0 ∧
        c_str (port c') = take 31 (c_str p) ∧
        (length (c_str (port c')) ≤ 31)%nat ∧
        ((length (c_str p) ≤ 31)%nat → c_str (port c') = c_str p) ∧
        baudrate c' = baudrate c ∧ update_rate_hz c' = update_rate_hz c ∧
        option_ c' = option_ c ∧ type_ c' = type_ c ∧
        enabled c' = enabled c ∧ reserved c' = reserved c.
Proof.
  intros Hlen. eexists. split; [by apply setPort_spec|].
  cbn [port baudrate update_rate_hz option_ type_ enabled reserved].
  change (sizeof_port - 1)%nat with 31%nat.
  rewrite c_str_strncpy_written.
  repeat split.
  - rewrite length_app, length_strncpy_written. reflexivity.
  - rewrite lookup_app_r by (rewrite length_strncpy_written; lia).
    by rewrite length_strncpy_written.
  - rewrite length_take. lia.
  - intros Hshort. by apply take_ge.
Qed.

Lemma setPort_within_buffer_witness :
  ∃ c', setPort DeviceConfig_zero [47; 100; 101; 118] = Some c' ∧
        c_str (port c') = [47; 100; 101; 118].
Proof.
  destruct (setPort_within_buffer DeviceConfig_zero [47; 100; 101; 118])
    as (c' & Hset & _ & _ & Hstr & _).
  - reflexivity.
  - exists c'. split; [exact Hset | exact Hstr].
Defined.

(** ** Default construction *)

Lemma c_str_nul_first buf : c_str (<[0%nat:=0]> buf) = [].
Proof. by destruct buf. Qed.

(** C9. Whatever the memory held, a default-constructed
    [DeviceConfigTable] is unpublished and unacknowledged, and both device
    entries hold the documented defaults: an empty port string, 115200 baud,
    10 Hz, no option, type 1, disabled, reserved bytes zero. *)
Theorem DeviceConfigTable_defaults (raw : DeviceConfigTable) :
  let t := DeviceConfigTable_ctor raw in
  ready t = false ∧
  gps_ready (status t) = false ∧
  imu_ready (status t) = false ∧
  Forall (λ d : DeviceConfig,
            c_str (port d) = [] ∧ baudrate d = 115200 ∧
            update_rate_hz d = 10 ∧ option_ d = 0 ∧ type_ d = 1 ∧
            enabled d = false ∧ reserved d = [0; 0; 0; 0])
         [gps t; imu t].
Proof.
  cbv zeta. repeat split.
  repeat constructor; apply c_str_nul_first.
Qed.

End LayoutFacts.

(* ===================================================================== *)
(** * The liveness predicate                                              *)
(* ===================================================================== *)

Module LivenessFacts.
Import Liveness.

(** C7. With the sound agent's threshold 5000 and margin 500, a heartbeat
    written 4000 ms before [now] reads as alive and one written 6000 ms before
    [now] reads as not alive, at every time [now]. *)
Theorem sound_liveness_4000_6000 (now : Z) :
  Layout.AliveTimeThresholdSound = 5000 ∧ Layout.AliveTimeMargin = 500 ∧
  sound_alive now (now - 4000) = true ∧
  sound_alive now (now - 6000) = false.
Proof.
  unfold sound_alive, aliveness, Layout.AliveTimeThresholdSound,
    Layout.AliveTimeMargin.
  repeat split.
  - apply Z.ltb_lt. lia.
  - apply Z.ltb_ge. lia.
Qed.

End LivenessFacts.

(* ===================================================================== *)
(** * Properties of the container                                         *)
(* ===================================================================== *)

Module IPCFacts.
Import Posix IPC.

Section Runs.

Context {T : Type}.
Variable sizeof_T : Z.
Variable zeroed : T.
Variable construct : T → ctor_result T.

Abbreviation St := (SharedState * OS T)%type.

(** ** Rules for reading runs *)

Lemma wp_run {A} (m : M A) (s : St) Q :
  wp m s Q → ∀ a s' e, m s = (a, s', e) → Q a s' e.
Proof. unfold wp. intros H a s' e Hm. by rewrite Hm in H. Qed.

Lemma wp_eq {A} (m : M A) (s : St) r :
  wp m s (λ a s' e, (a, s', e) = r) → m s = r.
Proof. unfold wp. by destruct (m s) as [[a s'] e]. Qed.

Lemma wp_fst {A} (m : M A) (s : St) r :
  wp m s (λ a s' _, (a, s') = r) → (m s).1 = r.
Proof. unfold wp. by destruct (m s) as [[a s'] e]. Qed.

Lemma wp_any {A} (m : M A) (s : St) Q :
  Q (m s).1.1 (m s).1.2 (m s).2 → wp m s Q.
Proof. unfold wp. by destruct (m s) as [[a s'] e]. Qed.

Lemma wp_bind {A B} (m : M A) (k : A → M B) (s : St) Q :
  wp m s (λ a s1 e1, wp (k a) s1 (λ b s2 e2, Q b s2 (e1 ++ e2))) →
  wp (bind m k) s Q.
Proof.
  unfold wp, bind. destruct (m s) as [[a s1] e1].
  by destruct (k a s1) as [[b s2] e2].
Qed.

Lemma wp_ret {A} (a : A) (s : St) Q : Q a s [] → wp (ret a) s Q.
Proof. done. Qed.
Lemma wp_this (s : St) Q : Q s.1 s [] → wp this s Q.
Proof. done. Qed.
Lemma wp_assign f (s : St) Q : Q tt (f s.1, s.2) [] → wp (assign f) s Q.
Proof. done. Qed.
Lemma wp_emit ev (s : St) Q : Q tt s [ev] → wp (emit ev) s Q.
Proof. done. Qed.
Lemma wp_syscall {A} (f : OS T → A * OS T) ev (s : St) Q :
  Q (f s.2).1 (s.1, (f s.2).2) [ev (f s.2).1] → wp (syscall f ev) s Q.
Proof. unfold wp, syscall. by destruct (f s.2). Qed.
Lemma wp_syscall_ (f : OS T → OS T) ev (s : St) Q :
  Q tt (s.1, f s.2) [ev] → wp (syscall_ f ev) s Q.
Proof. done. Qed.

Ltac wp_step :=
  lazymatch goal with
  | |- wp (bind _ _) _ _ => apply wp_bind
  | |- wp (ret _) _ _ => apply wp_ret
  | |- wp this _ _ => apply wp_this
  | |- wp (assign _) _ _ => apply wp_assign
  | |- wp (emit _) _ _ => apply wp_emit
  | |- wp (syscall _ _) _ _ => apply wp_syscall
  | |- wp (syscall_ _ _) _ _ => apply wp_syscall_
  end;
  cbn beta iota delta [fst snd negb].

Ltac wp_steps := repeat wp_step.

(** ** Name validation *)

Lemma validateName_valid name (s : St) :
  valid_name name → validateName name s = (true, s, []).
Proof.
  intros [Hne Hget]. destruct name as [|c rest]; [done|].
  simpl in Hget. injection Hget as ->. reflexivity.
Qed.

Lemma validateName_invalid name (s : St) :
  ¬ valid_name name →
  validateName name s = (false, s, [Cerr (InvalidName name)]).
Proof.
  intros Hinv. destruct name as [|c rest]; [done|].
  unfold validateName.
  cbn [str_empty String.length Nat.eqb orb str_at String.get].
  destruct (Ascii.eqb_spec c "/") as [->|Hc]; [|done].
  exfalso. apply Hinv. by split.
Qed.

Lemma valid_name_dec name : valid_name name ∨ ¬ valid_name name.
Proof.
  destruct name as [|c rest]; [right; by intros [? _]|].
  destruct (Ascii.eqb_spec c "/") as [->|Hc]; [left; by split|].
  right. intros [_ [= ?]]. done.
Qed.

Lemma wp_validateName_valid name (s : St) Q :
  valid_name name → Q true s [] → wp (validateName name) s Q.
Proof. intros Hv HQ. unfold wp. by rewrite validateName_valid. Qed.

Lemma create_invalid fl name (s : St) :
  ¬ valid_name name →
  create sizeof_T zeroed construct fl name s
  = (false, s, [Cerr (InvalidName name)]).
Proof.
  intros Hinv. unfold create, bind. by rewrite validateName_invalid.
Qed.

Lemma open_invalid fl name (s : St) :
  ¬ valid_name name →
  open sizeof_T zeroed fl name s = (false, s, [Cerr (InvalidName name)]).
Proof.
  intros Hinv. unfold open, bind. by rewrite validateName_invalid.
Qed.

(** ** System calls *)

Lemma shm_unlink_eq n (os : OS T) :
  shm_unlink n os = ((shm_unlink n os).1, set_names (delete n) os).
Proof.
  unfold shm_unlink. destruct (names os !! n) eqn:E; cbn [fst]; [done|].
  f_equal. destruct os as [nm ob fd mp]. unfold set_names. cbn in *.
  by rewrite delete_id.
Qed.

Lemma shm_unlink_absent n (os : OS T) :
  names os !! n = None → (shm_unlink n os).2 = os.
Proof. intros H. unfold shm_unlink. by rewrite H. Qed.

Lemma fresh_fd_None (os : OS T) : fds os !! fresh (dom (fds os)) = None.
Proof. apply not_elem_of_dom, is_fresh. Qed.
Lemma fresh_object_None (os : OS T) :
  objects os !! fresh (dom (objects os)) = None.
Proof. apply not_elem_of_dom, is_fresh. Qed.
Lemma fresh_mapping_None (os : OS T) :
  mappings os !! fresh (dom (mappings os)) = None.
Proof. apply not_elem_of_dom, is_fresh. Qed.

Lemma set_fds_delete_insert fd id (os : OS T) :
  fds os !! fd = None → set_fds (delete fd) (set_fds <[fd:=id]> os) = os.
Proof.
  intros Hfd. destruct os as [nm ob fdt mp]. unfold set_fds.
  cbn [names objects fds mappings] in *. by rewrite delete_insert_id.
Qed.

Lemma set_mappings_delete_insert a id (os : OS T) :
  mappings os !! a = None →
  set_mappings (delete a) (set_mappings <[a:=id]> os) = os.
Proof.
  intros Ha. destruct os as [nm ob fdt mp]. unfold set_mappings.
  cbn [names objects fds mappings] in *. by rewrite delete_insert_id.
Qed.

Lemma of_N_ltb0 (x : N) : (Z.of_N x <? 0) = false.
Proof. apply Z.ltb_ge. lia. Qed.
Lemma of_N_geb0 (x : N) : (Z.of_N x >=? 0) = true.
Proof. rewrite Z.geb_leb. apply Z.leb_le. lia. Qed.

(** ** Closed forms of the member functions *)

Lemma cleanup_run (h : SharedState) (os : OS T) :
  (cleanup sizeof_T (h, os)).1
  = (tt, (cleanup_handle h, cleanup_os sizeof_T h os)).
Proof.
  apply wp_fst.
  unfold cleanup, cleanup_handle, cleanup_os. destruct h as [fd ptr own nm].
  cbn [shm_fd_ data_ptr_ is_owner_ shm_name_].
  wp_steps.
  cbn [shm_fd_ data_ptr_ is_owner_ shm_name_].
  destruct (ptr =? 0) eqn:Hptr; cbn [negb]; wp_steps;
    cbn [shm_fd_ data_ptr_ is_owner_ shm_name_ with_data_ptr with_shm_fd];
    (destruct (fd >=? 0) eqn:Hfd; wp_steps;
     cbn [shm_fd_ data_ptr_ is_owner_ shm_name_ with_data_ptr with_shm_fd];
     (destruct (own && negb (str_empty nm)) eqn:Hown; wp_steps;
      [ match goal with
        | |- wp (if ?c then _ else _) _ _ => destruct c
        end; wp_steps |];
      apply Z.eqb_eq in Hptr || idtac; subst; reflexivity)).
Qed.

Lemma cleanup_state (h : SharedState) (os : OS T) :
  (cleanup sizeof_T (h, os)).1.2 = (cleanup_handle h, cleanup_os sizeof_T h os).
Proof. by rewrite cleanup_run. Qed.

(** The closed form of [create] on a valid name. *)
Lemma create_run fl name h (os : OS T) :
  valid_name name →
  create sizeof_T zeroed construct fl name (h, os) =
    let n := c_str name in
    let h1 := with_shm_name name h in
    let u := (shm_unlink n os).1 in
    let fd := fresh (dom (fds os)) in
    let id := fresh (dom (objects os)) in
    let a := fresh (dom (mappings os)) in
    let h2 := with_shm_fd (Z.of_N fd) h1 in
    let h4 := with_data_ptr (Z.pos a) h2 in
    if shm_open_fails fl then
      (false, (with_shm_fd (-1) h1, set_names (delete n) os),
       [Sys_shm_unlink n u; Sys_shm_open n true (-1); Cerr ShmOpenFailed])
    else if ftruncate_fails fl then
      (false, (with_shm_fd (-1) h2, os_allocated n 0 zeroed os),
       [Sys_shm_unlink n u; Sys_shm_open n true (Z.of_N fd);
        Sys_ftruncate (Z.of_N fd) sizeof_T (-1); Cerr FtruncateFailed;
        Sys_close (Z.of_N fd)])
    else if mmap_fails fl then
      let c := cleanup sizeof_T
                 (h2, set_fds <[fd:=id]> (os_allocated n sizeof_T zeroed os)) in
      (false, c.1.2,
       [Sys_shm_unlink n u; Sys_shm_open n true (Z.of_N fd);
        Sys_ftruncate (Z.of_N fd) sizeof_T 0;
        Sys_mmap sizeof_T (Z.of_N fd) MAP_FAILED; Cerr (InternalError "mmap")]
       ++ c.2)
    else
      match construct zeroed with
      | Constructed t =>
          (true,
           (with_is_owner true h4,
            set_mappings <[a:=id]>
              (set_fds <[fd:=id]> (os_allocated n sizeof_T t os))),
           [Sys_shm_unlink n u; Sys_shm_open n true (Z.of_N fd);
            Sys_ftruncate (Z.of_N fd) sizeof_T 0;
            Sys_mmap sizeof_T (Z.of_N fd) (Z.pos a);
            PlacementNew (Z.pos a); Cout (Created name)])
      | Threw t =>
          let c := cleanup sizeof_T
                     (h4, set_mappings <[a:=id]>
                            (set_fds <[fd:=id]>
                               (os_allocated n sizeof_T t os))) in
          (false, c.1.2,
           [Sys_shm_unlink n u; Sys_shm_open n true (Z.of_N fd);
            Sys_ftruncate (Z.of_N fd) sizeof_T 0;
            Sys_mmap sizeof_T (Z.of_N fd) (Z.pos a);
            PlacementNew (Z.pos a); Cerr CreateException] ++ c.2)
      end.
Proof.
  intros Hv. cbv zeta.
  set (n := c_str name). set (fd := fresh (dom (fds os))).
  set (id := fresh (dom (objects os))). set (a := fresh (dom (mappings os))).
  pose proof (shm_unlink_eq n os) as Hu.
  set (os1 := set_names (delete n) os) in *.
  set (os2 := set_fds <[fd:=id]>
               (set_objects <[id:={| obj_size := 0; obj_data := zeroed |}]>
                  (set_names <[n:=id]> os1))).
  assert (Hopen : shm_open zeroed fl n true os1 =
                  if shm_open_fails fl then (-1, os1) else (Z.of_N fd, os2)).
  { unfold shm_open. destruct (shm_open_fails fl); [done|].
    unfold os1 at 1. cbn [names set_names]. by rewrite lookup_delete_eq. }
  assert (Hos2 : os2 = set_fds <[fd:=id]> (os_allocated n 0 zeroed os)).
  { unfold os2, os1, os_allocated, set_fds, set_objects, set_names.
    cbn [names objects fds mappings]. by rewrite insert_delete_eq. }
  set (os3 := set_fds <[fd:=id]> (os_allocated n sizeof_T zeroed os)).
  assert (Hft : ftruncate fl (Z.of_N fd) sizeof_T os2 =
                if ftruncate_fails fl then (-1, os2) else (0, os3)).
  { unfold ftruncate, fd_object. destruct (ftruncate_fails fl); [done|].
    rewrite of_N_ltb0, N2Z.id, Hos2. cbn [fds set_fds].
    rewrite lookup_insert_eq.
    f_equal. unfold os3, set_objects, set_fds, os_allocated.
    cbn [names objects fds mappings]. by rewrite alter_insert_eq. }
  set (os4 := set_mappings <[a:=id]> os3).
  assert (Hmm : mmap fl sizeof_T (Z.of_N fd) os3 =
                if mmap_fails fl then (MAP_FAILED, os3) else (Z.pos a, os4)).
  { unfold mmap, fd_object. destruct (mmap_fails fl); [done|].
    rewrite of_N_ltb0, N2Z.id. unfold os3 at 1. cbn [fds set_fds].
    by rewrite lookup_insert_eq. }
  apply wp_eq. unfold create.
  apply wp_bind, wp_validateName_valid; [done|]. cbn [negb].
  wp_steps. cbn [shm_name_ with_shm_name]. fold n.
  rewrite Hu. cbn [fst snd]. wp_steps. rewrite Hopen.
  destruct (shm_open_fails fl); cbn [fst snd]; wp_steps; [done|].
  rewrite of_N_ltb0. wp_steps. rewrite Hft.
  destruct (ftruncate_fails fl); cbn [fst snd]; wp_steps.
  { change (-1 <? 0) with true. cbv iota. wp_steps.
    unfold Posix.close. rewrite of_N_ltb0, N2Z.id, Hos2.
    rewrite set_fds_delete_insert by exact (fresh_fd_None os). reflexivity. }
  change (0 <? 0) with false. cbv iota. unfold mapMemory. wp_steps.
  cbn [shm_fd_ with_shm_fd]. rewrite Hmm.
  destruct (mmap_fails fl); cbn [fst snd]; wp_steps.
  { cbn [Z.eqb MAP_FAILED Pos.eqb]. unfold handleInternalError. wp_steps.
    apply wp_any. wp_steps. cbn [app]. by rewrite !app_nil_r. }
  cbn [Z.eqb MAP_FAILED]. wp_steps. cbn [data_ptr_ with_data_ptr Z.eqb negb].
  set (h4 := with_data_ptr _ _).
  set (os5 := λ t, set_mappings <[a:=id]>
                     (set_fds <[fd:=id]> (os_allocated n sizeof_T t os))).
  assert (Hnew : placement_new construct (h4, os4) =
                 match construct zeroed with
                 | Constructed t =>
                     (false, (h4, os5 t), [PlacementNew (Z.pos a)])
                 | Threw t => (true, (h4, os5 t), [PlacementNew (Z.pos a)])
                 end).
  { unfold placement_new, mapped_object. cbn [data_ptr_ h4 with_data_ptr].
    unfold os4 at 1. cbn [mappings set_mappings]. rewrite lookup_insert_eq.
    unfold os4 at 1, os3 at 1.
    cbn [objects set_mappings set_fds os_allocated]. rewrite lookup_insert_eq.
    cbn [obj_data].
    assert (Hw : ∀ t, write_object id t os4 = os5 t).
    { intros t. unfold write_object, os4, os3, os5, set_objects, set_mappings,
        set_fds, os_allocated. cbn [names objects fds mappings].
      by rewrite alter_insert_eq. }
    destruct (construct zeroed); by rewrite Hw. }
  unfold wp at 1. rewrite Hnew.
  destruct (construct zeroed) as [t|t]; wp_steps.
  - reflexivity.
  - apply wp_any. wp_steps. cbn [app]. by rewrite !app_nil_r.
Qed.

(** The closed form of [open] on a valid name. *)
Lemma open_run fl name h (os : OS T) :
  valid_name name →
  open sizeof_T zeroed fl name (h, os) =
    let n := c_str name in
    let h1 := with_shm_name name h in
    let fd := fresh (dom (fds os)) in
    let a := fresh (dom (mappings os)) in
    let h2 := with_shm_fd (Z.of_N fd) h1 in
    match (if shm_open_fails fl then None else names os !! n) with
    | None =>
        (false, (with_shm_fd (-1) h1, os),
         [Sys_shm_open n false (-1); Cerr ShmOpenFailed])
    | Some id =>
        if mmap_fails fl then
          let c := cleanup sizeof_T (h2, set_fds <[fd:=id]> os) in
          (false, c.1.2,
           [Sys_shm_open n false (Z.of_N fd);
            Sys_mmap sizeof_T (Z.of_N fd) MAP_FAILED;
            Cerr (InternalError "mmap")] ++ c.2)
        else
          (true,
           (with_is_owner false (with_data_ptr (Z.pos a) h2),
            set_mappings <[a:=id]> (set_fds <[fd:=id]> os)),
           [Sys_shm_open n false (Z.of_N fd);
            Sys_mmap sizeof_T (Z.of_N fd) (Z.pos a); Cout (Opened name)])
    end.
Proof.
  intros Hv. cbv zeta.
  set (n := c_str name). set (fd := fresh (dom (fds os))).
  set (a := fresh (dom (mappings os))).
  apply wp_eq. unfold open.
  apply wp_bind, wp_validateName_valid; [done|]. cbn [negb].
  wp_steps. cbn [shm_name_ with_shm_name]. fold n.
  unfold shm_open. fold fd.
  destruct (shm_open_fails fl); cbn [fst snd].
  { change (-1 <? 0) with true. cbv iota. by wp_steps. }
  destruct (names os !! n) as [id|] eqn:Hn; cbn [fst snd].
  2:{ change (-1 <? 0) with true. cbv iota. by wp_steps. }
  rewrite of_N_ltb0. unfold mapMemory. wp_steps. cbn [shm_fd_ with_shm_fd].
  unfold mmap, fd_object. rewrite of_N_ltb0, N2Z.id. cbn [fds set_fds].
  rewrite lookup_insert_eq. fold a.
  destruct (mmap_fails fl); cbn [fst snd].
  { cbn [Z.eqb MAP_FAILED Pos.eqb]. unfold handleInternalError. wp_steps.
    apply wp_any. wp_steps. cbn [app]. by rewrite !app_nil_r. }
  cbn [Z.eqb MAP_FAILED]. by wp_steps.
Qed.

(** ** Invalid names *)

Lemma not_valid_name name :
  name = EmptyString ∨ String.get 0 name ≠ Some "/"%char → ¬ valid_name name.
Proof. intros [->|Hne] [Hv Hget]; done. Qed.

(** C4. For a name that is empty or does not start with ['/'], [create]
    and [open] both return [false], print the invalid-name message and
    nothing else, make no system call, and leave the container and the
    operating system exactly as they were. *)
Theorem invalid_name_rejected fl name (h : SharedState) (os : OS T) :
  name = EmptyString ∨ String.get 0 name ≠ Some "/"%char →
  create sizeof_T zeroed construct fl name (h, os)
    = (false, (h, os), [Cerr (InvalidName name)]) ∧
  open sizeof_T zeroed fl name (h, os)
    = (false, (h, os), [Cerr (InvalidName name)]).
Proof.
  intros Hinv%not_valid_name. split.
  - by apply create_invalid.
  - by apply open_invalid.
Qed.

(** ** A successful [create] *)

Lemma shm_unlink_ret n (os : OS T) :
  (shm_unlink n os).1 = match names os !! n with Some _ => 0 | None => -1 end.
Proof. unfold shm_unlink. by destruct (names os !! n). Qed.

(** C2. On a valid name, when no system call fails and the constructor
    returns, [create] makes exactly these steps in this order: it removes the
    name (which succeeds when a resource was linked under it), allocates a new
    object with [O_CREAT], sizes it to [sizeof(T)], maps it and constructs the
    record in place; it returns [true].  The name is then linked to an object
    that did not exist before and that holds the constructed record, whether
    or not a resource existed under the name. *)
Theorem create_steps_in_order name (h : SharedState) (os : OS T) (t : T) :
  valid_name name →
  construct zeroed = Constructed t →
  let n := c_str name in
  let fd := Z.of_N (fresh (dom (fds os))) in
  let id := fresh (dom (objects os)) in
  let a := Z.pos (fresh (dom (mappings os))) in
  ∃ h' os',
    create sizeof_T zeroed construct no_faults name (h, os)
    = (true, (h', os'),
       [Sys_shm_unlink n (match names os !! n with Some _ => 0 | None => -1 end);
        Sys_shm_open n true fd;
        Sys_ftruncate fd sizeof_T 0;
        Sys_mmap sizeof_T fd a;
        PlacementNew a;
        Cout (Created name)]) ∧
    (id ∉ dom (objects os)) ∧
    names os' !! n = Some id ∧
    objects os' !! id = Some {| obj_size := sizeof_T; obj_data := t |} ∧
    is_owner_ h' = true ∧ shm_fd_ h' = fd ∧ data_ptr_ h' = a ∧
    deref h' os' = Some t.
Proof.
  intros Hv Hc. cbv zeta. rewrite create_run by done. cbv zeta.
  cbn [no_faults shm_open_fails ftruncate_fails mmap_fails]. rewrite Hc.
  rewrite shm_unlink_ret.
  eexists _, _. split; [reflexivity|].
  unfold deref, load, mapped_object.
  cbn [names objects fds mappings set_mappings set_fds os_allocated
       is_owner_ shm_fd_ data_ptr_ with_is_owner with_data_ptr with_shm_fd].
  rewrite !lookup_insert_eq. cbn [fmap option_fmap option_map obj_data].
  repeat split. apply is_fresh.
Qed.

(** ** [create], then [open] from a second container *)

Lemma create_true_inv fl name h (os : OS T) h' os' evs :
  valid_name name →
  create sizeof_T zeroed construct fl name (h, os) = (true, (h', os'), evs) →
  ∃ t, construct zeroed = Constructed t ∧
       h' = with_is_owner true
              (with_data_ptr (Z.pos (fresh (dom (mappings os))))
                 (with_shm_fd (Z.of_N (fresh (dom (fds os))))
                    (with_shm_name name h))) ∧
       os' = set_mappings
               <[fresh (dom (mappings os)):=fresh (dom (objects os))]>
               (set_fds <[fresh (dom (fds os)):=fresh (dom (objects os))]>
                  (os_allocated (c_str name) sizeof_T t os)).
Proof.
  intros Hv. rewrite create_run by done. cbv zeta.
  destruct (shm_open_fails fl); [discriminate|].
  destruct (ftruncate_fails fl); [discriminate|].
  destruct (mmap_fails fl); [discriminate|].
  destruct (construct zeroed) as [t|t]; [|discriminate].
  intros [= <- <- <-]. by exists t.
Qed.

Lemma open_true_inv fl name h (os : OS T) h' os' evs :
  valid_name name →
  open sizeof_T zeroed fl name (h, os) = (true, (h', os'), evs) →
  ∃ id, names os !! c_str name = Some id ∧
        h' = with_is_owner false
               (with_data_ptr (Z.pos (fresh (dom (mappings os))))
                  (with_shm_fd (Z.of_N (fresh (dom (fds os))))
                     (with_shm_name name h))) ∧
        os' = set_mappings <[fresh (dom (mappings os)):=id]>
                (set_fds <[fresh (dom (fds os)):=id]> os) ∧
        evs = [Sys_shm_open (c_str name) false (Z.of_N (fresh (dom (fds os))));
               Sys_mmap sizeof_T (Z.of_N (fresh (dom (fds os))))
                 (Z.pos (fresh (dom (mappings os))));
               Cout (Opened name)].
Proof.
  intros Hv. rewrite open_run by done. cbv zeta.
  destruct (shm_open_fails fl); [discriminate|].
  destruct (names os !! c_str name) as [id|]; [|discriminate].
  destruct (mmap_fails fl); [discriminate|].
  intros [= <- <- <-]. by exists id.
Qed.

Lemma open_no_faults_linked name h (os : OS T) id :
  valid_name name →
  names os !! c_str name = Some id →
  (open sizeof_T zeroed no_faults name (h, os)).1.1 = true.
Proof.
  intros Hv Hn. rewrite open_run by done. cbv zeta.
  cbn [no_faults shm_open_fails mmap_fails]. by rewrite Hn.
Qed.

(** C1. On a valid name, after a [create] that returned [true] the record
    read through the creator is the one the constructor made from the fresh
    memory.  An [open] of the same name through any second container then
    succeeds when no system call fails; whenever it succeeds it constructs
    nothing, leaves every object as it was, does not take ownership, and
    the record read through it is that same record. *)
Theorem create_then_open_observes_initial_record
    fl name (h1 h1' h2 : SharedState) (os os1 : OS T) ev1 :
  valid_name name →
  create sizeof_T zeroed construct fl name (h1, os) = (true, (h1', os1), ev1) →
  ∃ t0,
    construct zeroed = Constructed t0 ∧
    deref h1' os1 = Some t0 ∧
    (open sizeof_T zeroed no_faults name (h2, os1)).1.1 = true ∧
    ∀ fl2 h2' os2 ev2,
      open sizeof_T zeroed fl2 name (h2, os1) = (true, (h2', os2), ev2) →
      Forall (λ e, ∀ addr, e ≠ PlacementNew addr) ev2 ∧
      objects os2 = objects os1 ∧
      names os2 = names os1 ∧
      is_owner_ h2' = false ∧
      deref h2' os2 = Some t0.
Proof.
  intros Hv Hcreate.
  destruct (create_true_inv _ _ _ _ _ _ _ Hv Hcreate) as (t0 & Hc & -> & ->).
  assert (Hname : names
            (set_mappings
               <[fresh (dom (mappings os)):=fresh (dom (objects os))]>
               (set_fds <[fresh (dom (fds os)):=fresh (dom (objects os))]>
                  (os_allocated (c_str name) sizeof_T t0 os)))
            !! c_str name = Some (fresh (dom (objects os)))).
  { cbn [names set_mappings set_fds os_allocated].
    apply lookup_insert_eq. }
  exists t0. split; [done|]. split.
  { unfold deref, load, mapped_object.
    cbn [data_ptr_ with_is_owner with_data_ptr mappings objects
         set_mappings set_fds os_allocated].
    by rewrite !lookup_insert_eq. }
  split; [by eapply open_no_faults_linked|].
  intros fl2 h2' os2 ev2 Hopen.
  destruct (open_true_inv _ _ _ _ _ _ _ Hv Hopen) as (id & Hid & -> & -> & ->).
  rewrite Hname in Hid. injection Hid as <-.
  repeat split.
  - by repeat constructor.
  - unfold deref, load, mapped_object.
    cbn [data_ptr_ with_is_owner with_data_ptr mappings objects
         set_mappings set_fds os_allocated].
    by rewrite !lookup_insert_eq.
Qed.

(** ** Failed attempts *)

Lemma unattached_cleanup_fd (h : SharedState) (os : OS T) fd id :
  unattached h →
  fds os !! fd = None →
  (cleanup sizeof_T (with_shm_fd (Z.of_N fd) h, set_fds <[fd:=id]> os)).1.2
  = (with_shm_fd (-1) h, os).
Proof.
  intros (Hfd & Hptr & Hown) Hfree. rewrite cleanup_state.
  unfold cleanup_handle, cleanup_os.
  cbn [shm_fd_ data_ptr_ is_owner_ shm_name_ with_shm_fd].
  rewrite Hptr, Hown, of_N_geb0. cbn [Z.eqb negb andb].
  unfold Posix.close. rewrite of_N_ltb0, N2Z.id.
  rewrite set_fds_delete_insert by done.
  f_equal. destruct h. cbn in *. by subst.
Qed.

Lemma unattached_cleanup_mapped (h : SharedState) (os : OS T) fd a id :
  unattached h →
  fds os !! fd = None →
  mappings os !! a = None →
  (cleanup sizeof_T
     (with_data_ptr (Z.pos a) (with_shm_fd (Z.of_N fd) h),
      set_mappings <[a:=id]> (set_fds <[fd:=id]> os))).1.2
  = (with_shm_fd (-1) h, os).
Proof.
  intros (Hfd & Hptr & Hown) Hfree Hfree'. rewrite cleanup_state.
  unfold cleanup_handle, cleanup_os.
  cbn [shm_fd_ data_ptr_ is_owner_ shm_name_ with_shm_fd with_data_ptr].
  rewrite Hown, of_N_geb0. cbn [Z.eqb negb andb].
  unfold Posix.close, munmap. rewrite of_N_ltb0, N2Z.id.
  rewrite set_mappings_delete_insert by done.
  rewrite set_fds_delete_insert by done.
  f_equal. destruct h. cbn in *. by subst.
Qed.

Lemma unattached_with_name name h :
  unattached h → unattached (with_shm_name name h).
Proof. by intros (? & ? & ?). Qed.

Lemma unattached_with_fd h :
  unattached h → unattached (with_shm_fd (-1) h).
Proof. by intros (? & ? & ?). Qed.

(** C3, as the code has it.  On a container that is not attached,
    [create] and [open] return [false] at every failure point (invalid name,
    the object cannot be allocated or opened, it cannot be sized, it cannot
    be mapped); whenever they return [false] the container is again not
    attached, and the descriptors and mappings of the operating system are
    those from before the call.  A failed [open] leaves the whole operating
    system as it was, and so does a [create] rejected for its name; a
    [create] whose allocation fails has removed the name and left every
    object as it was.  After any other failed [create] the object it
    allocated is still linked under the name, of size 0 when the sizing
    failed: nothing but that object and its name is left. *)
Theorem failed_attach_rolls_back_handle fl name (h : SharedState) (os : OS T) :
  unattached h →
  (∀ r h' os' evs,
     create sizeof_T zeroed construct fl name (h, os) = (r, (h', os'), evs) →
     ((¬ valid_name name ∨ shm_open_fails fl = true ∨
       ftruncate_fails fl = true ∨ mmap_fails fl = true) → r = false) ∧
     (r = false →
      unattached h' ∧ fds os' = fds os ∧ mappings os' = mappings os ∧
      (¬ valid_name name → os' = os) ∧
      (valid_name name → shm_open_fails fl = true →
       names os' = delete (c_str name) (names os) ∧
       objects os' = objects os) ∧
      (valid_name name → shm_open_fails fl = false →
       names os' = <[c_str name:=fresh (dom (objects os))]> (names os) ∧
       ∃ o, objects os' = <[fresh (dom (objects os)):=o]> (objects os) ∧
            obj_size o = if ftruncate_fails fl then 0 else sizeof_T))) ∧
  (∀ r h' os' evs,
     open sizeof_T zeroed fl name (h, os) = (r, (h', os'), evs) →
     ((¬ valid_name name ∨ shm_open_fails fl = true ∨
       names os !! c_str name = None ∨ mmap_fails fl = true) → r = false) ∧
     (r = false → unattached h' ∧ os' = os)).
Proof.
  intros Hun.
  pose proof (unattached_with_fd _ (unattached_with_name name h Hun)) as Hun1.
  split; intros r h' os' evs Hrun.
  - destruct (valid_name_dec name) as [Hv|Hinv].
    2:{ rewrite create_invalid in Hrun by done. injection Hrun as <- <- <- <-.
        split; [done|]. intros _. split_and!; done. }
    rewrite create_run in Hrun by done. cbv zeta in Hrun.
    destruct (shm_open_fails fl).
    { injection Hrun as <- <- <- <-. split; [done|]. intros _.
      split_and!; [exact Hun1|done|done|by intros ?|done|by intros _ [=]]. }
    destruct (ftruncate_fails fl).
    { injection Hrun as <- <- <- <-. split; [done|]. intros _.
      split_and!; [exact Hun1|done|done|by intros ?|by intros _ [=]|].
      intros _ _. split; [done|]. by eexists. }
    destruct (mmap_fails fl).
    { rewrite (unattached_cleanup_fd _ (os_allocated _ _ _ os)) in Hrun;
        [|by apply unattached_with_name|exact (fresh_fd_None os)].
      injection Hrun as <- <- <- <-. split; [done|]. intros _.
      split_and!; [exact Hun1|done|done|by intros ?|by intros _ [=]|].
      intros _ _. split; [done|]. by eexists. }
    destruct (construct zeroed) as [t|t] eqn:Hc.
    { injection Hrun as <- <- <- <-. split; [|done].
      intros [?|[?|[?|?]]]; done. }
    rewrite (unattached_cleanup_mapped _ (os_allocated _ _ _ os)) in Hrun;
      [|by apply unattached_with_name|exact (fresh_fd_None os)
       |exact (fresh_mapping_None os)].
    injection Hrun as <- <- <- <-. split; [done|]. intros _.
    split_and!; [exact Hun1|done|done|by intros ?|by intros _ [=]|].
    intros _ _. split; [done|]. by eexists.
  - destruct (valid_name_dec name) as [Hv|Hinv].
    2:{ rewrite open_invalid in Hrun by done. by injection Hrun as <- <- <- <-. }
    rewrite open_run in Hrun by done. cbv zeta in Hrun.
    destruct (shm_open_fails fl).
    { injection Hrun as <- <- <- <-. split; [done|]. intros _.
      split; [exact Hun1|done]. }
    destruct (names os !! c_str name) as [id|].
    2:{ injection Hrun as <- <- <- <-. split; [done|]. intros _.
        split; [exact Hun1|done]. }
    destruct (mmap_fails fl).
    { rewrite unattached_cleanup_fd in Hrun;
        [|by apply unattached_with_name|exact (fresh_fd_None os)].
      injection Hrun as <- <- <- <-. split; [done|]. intros _.
      split; [exact Hun1|done]. }
    injection Hrun as <- <- <- <-. split; [|done].
    intros [?|[?|[?|?]]]; done.
Qed.

(** ** [close] and the destructor *)

Lemma cleanup_handle_idem h : cleanup_handle (cleanup_handle h) = cleanup_handle h.
Proof.
  unfold cleanup_handle. cbn [shm_fd_ data_ptr_ is_owner_ shm_name_].
  f_equal. destruct (shm_fd_ h >=? 0) eqn:E; [done|]. by rewrite E.
Qed.

Lemma cleanup_os_idem h (os : OS T) :
  cleanup_os sizeof_T (cleanup_handle h) (cleanup_os sizeof_T h os)
  = cleanup_os sizeof_T h os.
Proof.
  unfold cleanup_os at 1. unfold cleanup_handle.
  cbn [shm_fd_ data_ptr_ is_owner_ shm_name_ Z.eqb negb].
  assert (Hfd : ((if shm_fd_ h >=? 0 then -1 else shm_fd_ h) >=? 0) = false).
  { destruct (shm_fd_ h >=? 0) eqn:E; [done|]. by rewrite E. }
  rewrite Hfd.
  destruct (is_owner_ h && negb (str_empty (shm_name_ h))) eqn:Hown; [|done].
  apply shm_unlink_absent. unfold cleanup_os. rewrite Hown.
  rewrite shm_unlink_eq. cbn [snd names set_names]. apply lookup_delete_eq.
Qed.

Lemma cleanup_os_mappings h (os : OS T) :
  mappings (cleanup_os sizeof_T h os)
  = match data_ptr_ h with
    | Z.pos a => delete a (mappings os)
    | _ => mappings os
    end.
Proof.
  unfold cleanup_os.
  destruct (is_owner_ h && negb (str_empty (shm_name_ h)));
    [rewrite shm_unlink_eq; cbn [snd mappings set_names]|];
    (destruct (shm_fd_ h >=? 0);
     [unfold Posix.close; destruct (shm_fd_ h <? 0); cbn [mappings set_fds]|];
     destruct (data_ptr_ h); done).
Qed.

Lemma cleanup_os_fds h (os : OS T) :
  fds (cleanup_os sizeof_T h os)
  = if shm_fd_ h >=? 0 then delete (Z.to_N (shm_fd_ h)) (fds os) else fds os.
Proof.
  unfold cleanup_os.
  destruct (is_owner_ h && negb (str_empty (shm_name_ h)));
    [rewrite shm_unlink_eq; cbn [snd fds set_names]|];
    (destruct (shm_fd_ h >=? 0) eqn:Hfd;
     [unfold Posix.close;
      replace (shm_fd_ h <? 0) with false
        by (symmetry; apply Z.ltb_ge; rewrite Z.geb_leb in Hfd;
            by apply Z.leb_le in Hfd);
      cbn [fds set_fds]|];
     destruct (data_ptr_ h); done).
Qed.

Lemma cleanup_os_names h (os : OS T) :
  names (cleanup_os sizeof_T h os)
  = if is_owner_ h && negb (str_empty (shm_name_ h))
    then delete (c_str (shm_name_ h)) (names os)
    else names os.
Proof.
  unfold cleanup_os.
  destruct (is_owner_ h && negb (str_empty (shm_name_ h)));
    [rewrite shm_unlink_eq; cbn [snd names set_names]|];
    (destruct (shm_fd_ h >=? 0);
     [unfold Posix.close; destruct (shm_fd_ h <? 0); cbn [names set_fds]|];
     destruct (data_ptr_ h); done).
Qed.

Lemma cleanup_os_objects h (os : OS T) :
  objects (cleanup_os sizeof_T h os) = objects os.
Proof.
  unfold cleanup_os.
  destruct (is_owner_ h && negb (str_empty (shm_name_ h)));
    [rewrite shm_unlink_eq; cbn [snd objects set_names]|];
    (destruct (shm_fd_ h >=? 0);
     [unfold Posix.close; destruct (shm_fd_ h <? 0); cbn [objects set_fds]|];
     destruct (data_ptr_ h); done).
Qed.

(** C5. [close()], and the destructor, which runs the same body: the
    container ends unmapped and without descriptor, its mapping and its
    descriptor are released, and the name is removed exactly when the owner
    flag is set (and a name was recorded); no object is altered.  With the
    owner flag clear the name space is untouched, so a later [open] of a name
    that was linked succeeds when no system call fails.  A second [close()]
    changes neither the container nor the operating system. *)
Theorem close_unmaps_and_unlinks_only_as_owner (h : SharedState) (os : OS T) :
  destroy sizeof_T (h, os) = close sizeof_T (h, os) ∧
  ∃ h' os' evs,
    close sizeof_T (h, os) = (tt, (h', os'), evs) ∧
    data_ptr_ h' = 0 ∧ shm_fd_ h' < 0 ∧ is_owner_ h' = is_owner_ h ∧
    mappings os' = match data_ptr_ h with
                   | Z.pos a => delete a (mappings os)
                   | _ => mappings os
                   end ∧
    fds os' = (if shm_fd_ h >=? 0
               then delete (Z.to_N (shm_fd_ h)) (fds os) else fds os) ∧
    names os' = (if is_owner_ h && negb (str_empty (shm_name_ h))
                 then delete (c_str (shm_name_ h)) (names os)
                 else names os) ∧
    objects os' = objects os ∧
    (close sizeof_T (h', os')).1 = (tt, (h', os')) ∧
    (is_owner_ h = false →
     names os' = names os ∧
     ∀ name h2,
       valid_name name → is_Some (names os !! c_str name) →
       (open sizeof_T zeroed no_faults name (h2, os')).1.1 = true).
Proof.
  split; [done|]. unfold close.
  pose proof (cleanup_run h os) as Hrun.
  destruct (cleanup sizeof_T (h, os)) as [[[] [h' os']] evs].
  cbn [fst] in Hrun. injection Hrun as -> ->.
  eexists _, _, _. split; [reflexivity|].
  split; [done|]. split.
  { unfold cleanup_handle. cbn [shm_fd_].
    destruct (shm_fd_ h >=? 0) eqn:E; [done|].
    rewrite Z.geb_leb in E. apply Z.leb_gt in E. done. }
  split; [done|].
  split; [apply cleanup_os_mappings|].
  split; [apply cleanup_os_fds|].
  split; [apply cleanup_os_names|].
  split; [apply cleanup_os_objects|].
  split.
  { by rewrite cleanup_run, cleanup_handle_idem, cleanup_os_idem. }
  intros Hown.
  assert (Hnames : names (cleanup_os sizeof_T h os) = names os).
  { by rewrite cleanup_os_names, Hown. }
  split; [done|].
  intros name h2 Hv [id Hid].
  eapply open_no_faults_linked; [done|]. by rewrite Hnames.
Qed.

(** ** The owner flag *)

Lemma last_attach_from_snoc acc hist c r :
  last_attach_from acc (hist ++ [(c, r)])
  = match c, r with
    | Create _ _, true => Some ByCreate
    | Open _ _, true => Some ByOpen
    | _, _ => last_attach_from acc hist
    end.
Proof.
  revert acc. induction hist as [|[c' r'] hist IH]; intros acc.
  - by destruct c, r.
  - cbn [app last_attach_from]. destruct c', r'; by rewrite IH.
Qed.

Lemma exec_owner c (h : SharedState) (os : OS T) r h' os' evs :
  exec sizeof_T zeroed construct c (h, os) = (r, (h', os'), evs) →
  is_owner_ h' = match c, r with
                 | Create _ _, true => true
                 | Open _ _, true => false
                 | _, _ => is_owner_ h
                 end.
Proof.
  destruct c as [fl name|fl name|]; cbn [exec]; intros Hrun.
  - destruct (valid_name_dec name) as [Hv|Hinv].
    2:{ rewrite create_invalid in Hrun by done. by injection Hrun as <- <- <- <-. }
    rewrite create_run in Hrun by done. cbv zeta in Hrun.
    destruct (shm_open_fails fl); [by injection Hrun as <- <- <- <-|].
    destruct (ftruncate_fails fl); [by injection Hrun as <- <- <- <-|].
    destruct (mmap_fails fl).
    { rewrite cleanup_state in Hrun. by injection Hrun as <- <- <- <-. }
    destruct (construct zeroed); [by injection Hrun as <- <- <- <-|].
    rewrite cleanup_state in Hrun. by injection Hrun as <- <- <- <-.
  - destruct (valid_name_dec name) as [Hv|Hinv].
    2:{ rewrite open_invalid in Hrun by done. by injection Hrun as <- <- <- <-. }
    rewrite open_run in Hrun by done. cbv zeta in Hrun.
    destruct (shm_open_fails fl); [by injection Hrun as <- <- <- <-|].
    destruct (names os !! c_str name); [|by injection Hrun as <- <- <- <-].
    destruct (mmap_fails fl); [|by injection Hrun as <- <- <- <-].
    rewrite cleanup_state in Hrun. by injection Hrun as <- <- <- <-.
  - unfold bind, close, ret in Hrun.
    pose proof (cleanup_state h os) as Hst.
    destruct (cleanup sizeof_T (h, os)) as [[[] s1] e1].
    cbn [fst snd] in Hst. subst s1. by injection Hrun as <- <- <- <-.
Qed.

(** C6. Along every history of a container, the owner flag is set exactly
    when the last call that attached it successfully was [create()]; and from
    any reachable state, one more call leaves the flag set after a successful
    [create()], clear after a successful [open()], and as it was after
    [close()] and after a failed call. *)
Theorem owner_flag_only_from_create hist (h : SharedState) :
  reachable sizeof_T zeroed construct hist h →
  (is_owner_ h = true ↔ last_attach hist = Some ByCreate) ∧
  ∀ c os r h' os' evs,
    exec sizeof_T zeroed construct c (h, os) = (r, (h', os'), evs) →
    is_owner_ h' = match c, r with
                   | Create _ _, true => true
                   | Open _ _, true => false
                   | _, _ => is_owner_ h
                   end.
Proof.
  intros Hreach. split; [|intros c os r h' os' evs; apply exec_owner].
  induction Hreach as [|hist h c os r h' os' evs Hreach IH Hexec].
  - done.
  - unfold last_attach in *. rewrite last_attach_from_snoc.
    rewrite (exec_owner _ _ _ _ _ _ _ Hexec).
    destruct c, r; done.
Qed.

End Runs.

(** ** The device configuration container on an empty system *)

Section DeviceConfigRuns.

Import Layout.

Local Abbreviation name := DEVICE_CONFIG_SHM_NAME.
Local Abbreviation os0 := (@empty_OS DeviceConfigTable).

Lemma valid_device_config_name : valid_name name.
Proof. split; [discriminate | reflexivity]. Qed.

Lemma create_then_open_observes_initial_record_witness :
  valid_name name ∧ created.1.1 = true ∧ opened.1.1 = true ∧
  deref opened.1.2.1 opened.1.2.2
  = Some (DeviceConfigTable_ctor DeviceConfigTable_zero).
Proof.
  destruct (create_then_open_observes_initial_record
              sizeof_DeviceConfigTable DeviceConfigTable_zero
              DeviceConfigTable_construct no_faults name
              SharedState_new created.1.2.1 SharedState_new
              os0 created.1.2.2 created.2)
    as (t0 & Hc & _ & Hopen & Hread).
  - split; [discriminate | reflexivity].
  - vm_compute. reflexivity.
  - injection Hc as <-.
    destruct (Hread no_faults opened.1.2.1 opened.1.2.2 opened.2)
      as (_ & _ & _ & _ & Hderef).
    + vm_compute. reflexivity.
    + split; [split; [discriminate | reflexivity]|].
      split; [reflexivity|]. split; [exact Hopen | exact Hderef].
Defined.

Lemma create_steps_in_order_witness :
  valid_name name ∧
  created.2 = [Sys_shm_unlink name (-1); Sys_shm_open name true 0;
               Sys_ftruncate 0 sizeof_DeviceConfigTable 0;
               Sys_mmap sizeof_DeviceConfigTable 0 1;
               PlacementNew 1; Cout (Created name)].
Proof.
  destruct (create_steps_in_order
              sizeof_DeviceConfigTable DeviceConfigTable_zero
              DeviceConfigTable_construct name SharedState_new os0
              (DeviceConfigTable_ctor DeviceConfigTable_zero))
    as (h' & os' & Hrun & _).
  - split; [discriminate | reflexivity].
  - reflexivity.
  - split; [split; [discriminate | reflexivity]|].
    change (DeviceConfigTable_create no_faults name (SharedState_new, os0)).2
      with created.2 in *.
    unfold created, DeviceConfigTable_create. rewrite Hrun. reflexivity.
Defined.

(** C3, as stated, fails: on a new container and an empty system, a
    [create] whose sizing fails returns [false] and leaves the name linked to
    an object of size 0 that did not exist before; one whose mapping fails
    leaves the name linked to a sized object that was never constructed.  So
    it is not the case that nothing of the failed attempt survives.  And a
    container that is attached stays mapped when a [create] on it is
    rejected for its name. *)
Lemma failed_create_leaves_object_linked :
  unattached SharedState_new ∧
  names os0 !! name = None ∧ objects os0 = ∅ ∧
  (unsized.1.1 = false ∧
   names unsized.1.2.2 !! name = Some 0%nat ∧
   objects unsized.1.2.2 !! 0%nat
   = Some {| obj_size := 0; obj_data := DeviceConfigTable_zero |}) ∧
  (unmapped.1.1 = false ∧
   names unmapped.1.2.2 !! name = Some 0%nat ∧
   objects unmapped.1.2.2 !! 0%nat
   = Some {| obj_size := sizeof_DeviceConfigTable;
             obj_data := DeviceConfigTable_zero |}) ∧
  ((DeviceConfigTable_create no_faults "" (created.1.2.1, created.1.2.2)).1
   = (false, (created.1.2.1, created.1.2.2)) ∧
   isInitialized created.1.2.1 = true) ∧
  ¬ (unsized.1.1 = false →
     names unsized.1.2.2 = names os0 ∧ objects unsized.1.2.2 = objects os0).
Proof.
  assert (Hlinked : names unsized.1.2.2 !! name = Some 0%nat)
    by (vm_compute; reflexivity).
  repeat split; try (vm_compute; reflexivity).
  intros Hclaim. destruct Hclaim as [Hnames _]; [vm_compute; reflexivity|].
  rewrite Hnames in Hlinked. discriminate Hlinked.
Qed.

Lemma failed_attach_rolls_back_handle_witness :
  unattached SharedState_new ∧
  unsized.1.1 = false ∧ unattached unsized.1.2.1 ∧
  fds unsized.1.2.2 = fds os0 ∧ mappings unsized.1.2.2 = mappings os0.
Proof.
  destruct (failed_attach_rolls_back_handle
              sizeof_DeviceConfigTable DeviceConfigTable_zero
              DeviceConfigTable_construct
              sized_fails name SharedState_new os0) as [Hcreate _].
  - repeat split.
  - destruct (Hcreate unsized.1.1 unsized.1.2.1 unsized.1.2.2 unsized.2)
      as [Hfail Hback].
    + vm_compute. reflexivity.
    + assert (Hr : unsized.1.1 = false).
      { apply Hfail. right. right. left. reflexivity. }
      destruct (Hback Hr) as (Hun & Hfds & Hmaps & _).
      repeat split; solve [exact Hr | apply Hun | exact Hfds | exact Hmaps].
Defined.

Lemma invalid_name_rejected_witness :
  DeviceConfigTable_create no_faults "gr_device_config" (SharedState_new, os0)
  = (false, (SharedState_new, os0), [Cerr (InvalidName "gr_device_config")]).
Proof.
  destruct (invalid_name_rejected
              sizeof_DeviceConfigTable DeviceConfigTable_zero
              DeviceConfigTable_construct no_faults "gr_device_config"
              SharedState_new os0) as [Hcreate _].
  - right. discriminate.
  - exact Hcreate.
Defined.

Lemma close_unmaps_and_unlinks_only_as_owner_witness :
  is_owner_ opened.1.2.1 = false ∧
  (DeviceConfigTable_open no_faults name
     (SharedState_new,
      (DeviceConfigTable_close (opened.1.2.1, opened.1.2.2)).1.2.2)).1.1
  = true.
Proof.
  destruct (close_unmaps_and_unlinks_only_as_owner
              sizeof_DeviceConfigTable DeviceConfigTable_zero
              opened.1.2.1 opened.1.2.2)
    as (_ & h' & os' & evs & Hclose & _ & _ & _ & _ & _ & _ & _ & _ & Hopen).
  assert (Hown : is_owner_ opened.1.2.1 = false) by reflexivity.
  split; [exact Hown|].
  destruct (Hopen Hown) as [_ Hagain].
  unfold DeviceConfigTable_close. rewrite Hclose. cbn [fst snd].
  apply Hagain.
  - split; [discriminate | reflexivity].
  - exists 0%nat. vm_compute. reflexivity.
Defined.

Lemma owner_flag_only_from_create_witness :
  is_owner_ created.1.2.1 = true ↔
  last_attach [(Create no_faults name, true)] = Some ByCreate.
Proof.
  refine (proj1 (owner_flag_only_from_create
                   sizeof_DeviceConfigTable DeviceConfigTable_zero
                   DeviceConfigTable_construct
                   [(Create no_faults name, true)] created.1.2.1 _)).
  apply (reachable_call _ _ _ [] SharedState_new (Create no_faults name)
           os0 true created.1.2.1 created.1.2.2 created.2).
  - apply reachable_new.
  - vm_compute. reflexivity.
Defined.

End DeviceConfigRuns.

End IPCFacts.

(* ===================================================================== *)
(** * Further properties of the record layouts                            *)
(* ===================================================================== *)

Module LayoutMore.
Import Layout LayoutFacts.

(** ** Option flags as a bit set *)

Lemma HasGpsOption_testbit (c : Z) (o : GpsOption) :
  HasGpsOption c o
  = match GpsOption_bit o with
    | Some k => Z.testbit c k
    | None => false
    end.
Proof.
  unfold HasGpsOption. destruct (GpsOption_bit o) as [k|] eqn:Hbit.
  - destruct (GpsOption_bit_value _ _ Hbit) as [Hk ->].
    by rewrite land_pow2_eqb, negb_involutive.
  - destruct o; try discriminate Hbit. cbn [GpsOption_value].
    by rewrite Z.land_0_r.
Qed.

Lemma GpsOption_bit_inj (o o' : GpsOption) (k : Z) :
  GpsOption_bit o = Some k → GpsOption_bit o' = Some k → o = o'.
Proof. destruct o, o'; intros H1 H2; simpl in *; congruence. Qed.

(** X1. The enumerators are independent flags.  Or-ing an enumerator's value
    into an options byte makes exactly that option present (unless it is
    [NONE], which adds nothing) and changes no other answer; and-ing with the
    complement of its value makes exactly that option absent. *)
Theorem HasGpsOption_set_clear (c : Z) (o o' : GpsOption) :
  HasGpsOption (Z.lor c (GpsOption_value o)) o'
  = HasGpsOption c o' || bool_decide (o' = o ∧ o ≠ NONE)
  ∧ HasGpsOption (Z.land c (Z.lnot (GpsOption_value o))) o'
    = HasGpsOption c o' && negb (bool_decide (o' = o)).
Proof.
  rewrite !HasGpsOption_testbit.
  destruct o'; cbn [GpsOption_bit];
    [by destruct o|
     rewrite Z.lor_spec, Z.land_spec, Z.lnot_spec by done;
     match goal with
     | |- context [Z.testbit c ?k] => destruct (Z.testbit c k)
     end; by destruct o..].
Qed.

(** ** The bytes [setPort] leaves in the buffer *)

Lemma strncpy_written_c_str n src :
  strncpy_written n src
  = take n (c_str src) ++ replicate (n - length (take n (c_str src))) 0.
Proof.
  revert src. induction n as [|n IH]; intros src; [done|].
  destruct src as [|c src]; [done|].
  cbn [strncpy_written c_str]. destruct (c =? 0); [done|].
  cbn [take length app]. by rewrite IH.
Qed.

(** X2. On a [DeviceConfig] whose [port] has its 32 bytes, [setPort] sets
    all 32 bytes: the first 31 characters of the input string followed by
    terminators up to the end of the buffer.  So the buffer afterwards
    depends on the input alone; nothing of a longer path stored before is
    left behind the new terminator, and an empty input clears the buffer. *)
Theorem setPort_overwrites_whole_buffer (c : DeviceConfig) (p : list Z) :
  length (port c) = sizeof_port →
  ∃ c', setPort c p = Some c' ∧
        port c' = take 31 (c_str p)
                  ++ replicate (32 - length (take 31 (c_str p))) 0.
Proof.
  intros Hlen. rewrite setPort_spec by done. eexists. split; [done|].
  cbn [port]. change (sizeof_port - 1)%nat with 31%nat.
  rewrite strncpy_written_c_str, <- app_assoc. f_equal.
  assert (length (take 31 (c_str p)) ≤ 31)%nat by (rewrite length_take; lia).
  replace (32 - length (take 31 (c_str p)))%nat
    with (31 - length (take 31 (c_str p)) + 1)%nat by lia.
  by rewrite replicate_add.
Qed.

Lemma setPort_overwrites_whole_buffer_witness :
  ∃ c', setPort DeviceConfig_zero [] = Some c' ∧ port c' = replicate 32 0.
Proof.
  destruct (setPort_overwrites_whole_buffer DeviceConfig_zero [])
    as (c' & Hset & Hport).
  - reflexivity.
  - exists c'. split; [exact Hset | exact Hport].
Defined.

(** X3. The sizes of the two arrays of a [DeviceConfig] are kept: the
    constructor, run over memory laid out as the struct, and [setPort], on
    any input, yield a struct laid out the same way; so [setPort] can be
    called again and again without ever writing outside [port]. *)
Theorem DeviceConfig_layout_kept (c : DeviceConfig) (ps : list (list Z)) :
  DeviceConfig_layout c →
  DeviceConfig_layout (DeviceConfig_ctor c) ∧
  ∃ c', foldl (λ acc p, acc ≫= λ d, setPort d p) (Some c) ps = Some c' ∧
        DeviceConfig_layout c'.
Proof.
  intros Hlay. split.
  { destruct Hlay as [Hp Hr]. split; cbn [port reserved DeviceConfig_ctor].
    - by rewrite length_insert.
    - apply length_replicate. }
  revert c Hlay. induction ps as [|p ps IH]; intros c Hlay.
  { by exists c. }
  cbn [foldl mbind option_bind].
  rewrite setPort_spec by apply Hlay.
  apply IH. split; cbn [port reserved]; [|apply Hlay].
  rewrite length_app, length_strncpy_written. reflexivity.
Qed.

Lemma DeviceConfig_layout_kept_witness :
  DeviceConfig_layout (DeviceConfig_ctor DeviceConfig_zero) ∧
  ∃ c', setPort DeviceConfig_zero [47; 100] ≫= (λ d, setPort d [47]) = Some c' ∧
        DeviceConfig_layout c'.
Proof.
  destruct (DeviceConfig_layout_kept DeviceConfig_zero [[47; 100]; [47]])
    as [Hctor Hsets].
  - split; reflexivity.
  - split; [exact Hctor | exact Hsets].
Defined.

End LayoutMore.

(* ===================================================================== *)
(** * Properties of the queue                                             *)
(* ===================================================================== *)

Module SafeQueueFacts.
Import SafeQueue.

Section Queue.

Context {T : Type}.
Variable T_default : T.

Lemma queue_push_all (items : list T) (q : SafeQueue T) :
  push_all items q = {| queue_ := queue_ q ++ items; running_ := running_ q |}.
Proof.
  revert q. induction items as [|x items IH]; intros q.
  - destruct q. cbn. by rewrite app_nil_r.
  - unfold push_all in *. cbn [foldl]. rewrite IH. cbn [push queue_ running_].
    by rewrite <- app_assoc.
Qed.

Lemma pop_n_of_items (n : nat) (items : list T) (r : bool) :
  (n ≤ length items)%nat →
  pop_n T_default n {| queue_ := items; running_ := r |}
  = Some (take n items, {| queue_ := drop n items; running_ := r |}).
Proof.
  revert items. induction n as [|n IH]; intros items Hn; [done|].
  destruct items as [|x items]; [cbn in Hn; lia|].
  cbn [pop_n]. unfold pop. cbn [queue_ running_ empty negb orb].
  rewrite IH by (cbn in Hn; lia). done.
Qed.

(** X4. First in, first out.  Whatever the queue holds and whether or not
    it has been stopped, after [items] are pushed a consumer that pops [n]
    times, [n] at most the number of queued elements, gets back the first
    [n] of the old content followed by the pushed items, in that order,
    each once, and the rest stays queued. *)
Theorem pop_returns_pushed_in_order
    (q : SafeQueue T) (items : list T) (n : nat) :
  (n ≤ length (queue_ q ++ items))%nat →
  pop_n T_default n (push_all items q)
  = Some (take n (queue_ q ++ items),
          {| queue_ := drop n (queue_ q ++ items); running_ := running_ q |}).
Proof. intros Hn. rewrite queue_push_all. by apply pop_n_of_items. Qed.

(** X5. After [stop()] no [pop()] waits: the elements queued before the
    stop are still handed out first, in order, and from then on every [pop()]
    returns a default-constructed [T] and leaves the queue as it is. *)
Theorem stop_drains_then_defaults (q : SafeQueue T) (n : nat) :
  pop_n T_default n (stop q)
  = Some (take n (queue_ q) ++ replicate (n - length (queue_ q)) T_default,
          {| queue_ := drop n (queue_ q); running_ := false |}).
Proof.
  unfold stop. generalize (queue_ q). clear q.
  induction n as [|n IH]; intros items.
  - by rewrite drop_0.
  - destruct items as [|x items].
    + cbn [pop_n]. unfold pop. cbn [queue_ running_ empty negb orb].
      specialize (IH []). cbn [drop take length app] in *.
      rewrite drop_nil, take_nil in IH. cbn [app] in IH.
      rewrite Nat.sub_0_r in IH. rewrite IH. by rewrite Nat.sub_0_r.
    + cbn [pop_n]. unfold pop. cbn [queue_ running_ empty negb orb].
      by rewrite IH.
Qed.

(** X6. A consumer is left waiting exactly when it asks a running queue for
    more elements than it holds; it is never left waiting on a stopped
    queue, and one [push] is enough to serve one waiting [pop]. *)
Theorem pop_waits_iff_running_and_short (q : SafeQueue T) (n : nat) :
  (pop_n T_default n q = None
   ↔ running_ q = true ∧ (length (queue_ q) < n)%nat)
  ∧ ∀ item, is_Some (pop T_default (push item q)).
Proof.
  split.
  - destruct q as [items r]. cbn [queue_ running_].
    destruct (decide (n ≤ length items)%nat) as [Hle|Hgt].
    { rewrite pop_n_of_items by done. split; [done|]. intros [_ ?]. lia. }
    destruct r.
    2:{ change {| queue_ := items; running_ := false |}
          with (stop {| queue_ := items; running_ := true |}).
        rewrite stop_drains_then_defaults. split; [done|]. by intros [? _]. }
    split; [intros _; split; [done|lia]|]. intros _.
    revert items Hgt. induction n as [|n IH]; intros items Hgt; [cbn in Hgt; lia|].
    destruct items as [|x items]; [done|].
    cbn [pop_n]. unfold pop. cbn [queue_ running_ empty negb orb].
    rewrite IH; [done|]. cbn in Hgt. lia.
  - intros item. unfold pop, push. cbn [queue_ running_].
    destruct (queue_ q); cbn; eauto.
Qed.

End Queue.

End SafeQueueFacts.

(* ===================================================================== *)
(** * Further properties of the container                                 *)
(* ===================================================================== *)

Module IPCMore.
Import Posix Access IPCFacts.

Section More.

Context {T : Type}.
Variable sizeof_T : Z.
Variable zeroed : T.
Variable construct : T → ctor_result T.

Local Abbreviation create' := (create sizeof_T zeroed construct).
Local Abbreviation open' := (open sizeof_T zeroed).
Local Abbreviation close' := (@close T sizeof_T).
Local Abbreviation exec' := (exec sizeof_T zeroed construct).

(** ** Auxiliary facts *)

Lemma valid_name_not_empty name : valid_name name → str_empty name = false.
Proof. intros [Hne _]. by destruct name. Qed.

Lemma fresh_mapping_ne (os : OS T) a id :
  mappings os !! a = Some id → fresh (dom (mappings os)) ≠ a.
Proof. intros Ha <-. by rewrite fresh_mapping_None in Ha. Qed.

Lemma fresh_fd_ne (os : OS T) fd id :
  fds os !! fd = Some id → fresh (dom (fds os)) ≠ fd.
Proof. intros Hfd <-. by rewrite fresh_fd_None in Hfd. Qed.

Lemma fresh_object_ne (os : OS T) id o :
  objects os !! id = Some o → fresh (dom (objects os)) ≠ id.
Proof. intros Hid <-. by rewrite fresh_object_None in Hid. Qed.

Lemma deref_mapped (h : SharedState) (os : OS T) a id o :
  data_ptr_ h = Z.pos a → mappings os !! a = Some id →
  objects os !! id = Some o → deref h os = Some (obj_data o).
Proof.
  intros Hp Ha Ho. unfold deref, load, mapped_object. by rewrite Hp, Ha, Ho.
Qed.

Lemma store_through_mapped (h : SharedState) f (os : OS T) a id o :
  data_ptr_ h = Z.pos a → mappings os !! a = Some id →
  objects os !! id = Some o →
  store_through h f os = Some (write_object id (f (obj_data o)) os).
Proof.
  intros Hp Ha Ho. unfold store_through, mapped_object. by rewrite Hp, Ha, Ho.
Qed.

Lemma write_object_lookup id t (os : OS T) id' :
  objects (write_object id t os) !! id'
  = if decide (id = id')
    then (λ o, {| obj_size := obj_size o; obj_data := t |}) <$> objects os !! id'
    else objects os !! id'.
Proof.
  unfold write_object. cbn [objects set_objects]. rewrite lookup_alter.
  by destruct (decide (id = id')) as [->|].
Qed.

(** What a successful [create] leaves: the container holds the only
    descriptor and mapping it made, of a new object linked under the name. *)
Lemma create_true_state fl name h (os : OS T) h' os' evs :
  create' fl name (h, os) = (true, (h', os'), evs) →
  ∃ t fd a id,
    valid_name name ∧ construct zeroed = Constructed t ∧
    objects os !! id = None ∧ fds os !! fd = None ∧ mappings os !! a = None ∧
    h' = {| shm_fd_ := Z.of_N fd; data_ptr_ := Z.pos a; is_owner_ := true;
            shm_name_ := name |} ∧
    os' = {| names := <[c_str name:=id]> (names os);
             objects := <[id:={| obj_size := sizeof_T; obj_data := t |}]>
                          (objects os);
             fds := <[fd:=id]> (fds os);
             mappings := <[a:=id]> (mappings os) |}.
Proof.
  intros Hrun. destruct (valid_name_dec name) as [Hv|Hinv].
  2:{ rewrite create_invalid in Hrun by done. discriminate Hrun. }
  destruct (create_true_inv _ _ _ _ _ _ _ _ _ _ Hv Hrun) as (t & Hc & -> & ->).
  exists t, (fresh (dom (fds os))), (fresh (dom (mappings os))),
    (fresh (dom (objects os))).
  split_and!; try done.
  - apply fresh_object_None.
  - apply fresh_fd_None.
  - apply fresh_mapping_None.
Qed.

(** What a successful [open] leaves. *)
Lemma open_true_state fl name h (os : OS T) h' os' evs :
  open' fl name (h, os) = (true, (h', os'), evs) →
  ∃ fd a id,
    valid_name name ∧ names os !! c_str name = Some id ∧
    fds os !! fd = None ∧ mappings os !! a = None ∧
    h' = {| shm_fd_ := Z.of_N fd; data_ptr_ := Z.pos a; is_owner_ := false;
            shm_name_ := name |} ∧
    os' = {| names := names os; objects := objects os;
             fds := <[fd:=id]> (fds os);
             mappings := <[a:=id]> (mappings os) |}.
Proof.
  intros Hrun. destruct (valid_name_dec name) as [Hv|Hinv].
  2:{ rewrite open_invalid in Hrun by done. discriminate Hrun. }
  destruct (open_true_inv _ _ _ _ _ _ _ _ _ Hv Hrun) as (id & Hid & -> & -> & _).
  exists (fresh (dom (fds os))), (fresh (dom (mappings os))), id.
  split_and!; try done.
  - apply fresh_fd_None.
  - apply fresh_mapping_None.
Qed.

(** What [close] leaves, for a container that holds a descriptor and a
    mapping. *)
Lemma close_attached_state (h : SharedState) (os : OS T) fd a :
  shm_fd_ h = Z.of_N fd → data_ptr_ h = Z.pos a →
  (close' (h, os)).1
  = (tt,
     ({| shm_fd_ := -1; data_ptr_ := 0; is_owner_ := is_owner_ h;
         shm_name_ := shm_name_ h |},
      {| names := if is_owner_ h && negb (str_empty (shm_name_ h))
                  then delete (c_str (shm_name_ h)) (names os) else names os;
         objects := objects os;
         fds := delete fd (fds os);
         mappings := delete a (mappings os) |})).
Proof.
  intros Hfd Hp. unfold close. rewrite cleanup_run. do 2 f_equal.
  - unfold cleanup_handle. by rewrite Hfd, of_N_geb0.
  - pose proof (cleanup_os_names sizeof_T h os) as Hn.
    pose proof (cleanup_os_objects sizeof_T h os) as Ho.
    pose proof (cleanup_os_fds sizeof_T h os) as Hf.
    pose proof (cleanup_os_mappings sizeof_T h os) as Hm.
    rewrite Hfd, of_N_geb0, N2Z.id in Hf. rewrite Hp in Hm.
    destruct (cleanup_os sizeof_T h os). cbn in *. by subst.
Qed.

(** [close] on a container that holds nothing and owns nothing does
    nothing. *)
Lemma close_unattached (h : SharedState) (os : OS T) :
  unattached h → close' (h, os) = (tt, (h, os), []).
Proof.
  intros (Hfd & Hp & Hown). destruct h as [fd p own nm]. cbn in *. subst.
  reflexivity.
Qed.

(** ** [isInitialized] *)

(** X7. [isInitialized()] is false on a new container and after every
    [close()], and true after every successful [create()] or [open()], when
    [data_ptr_] addresses a mapping.  A failed [create()] or [open()] never
    makes it true: where it is true afterwards the container still points
    where it pointed before the call. *)
Theorem isInitialized_tracks_attachment
    c (h : SharedState) (os : OS T) r h' os' evs :
  exec' c (h, os) = (r, (h', os'), evs) →
  isInitialized SharedState_new = false ∧
  match c with
  | Close => isInitialized h' = false
  | _ =>
      if r then isInitialized h' = true ∧
                is_Some (mapped_object (data_ptr_ h') os')
      else isInitialized h' = true → data_ptr_ h' = data_ptr_ h
  end.
Proof.
  intros Hrun. split; [done|].
  destruct c as [fl name|fl name|]; cbn [exec] in Hrun.
  - destruct r.
    + destruct (create_true_state _ _ _ _ _ _ _ Hrun)
        as (t & fd & a & id & _ & _ & _ & _ & _ & -> & ->).
      split; [done|]. cbn. rewrite lookup_insert_eq. by eexists.
    + destruct (valid_name_dec name) as [Hv|Hinv].
      2:{ rewrite create_invalid in Hrun by done. by injection Hrun as <- <-. }
      rewrite create_run in Hrun by done. cbv zeta in Hrun.
      destruct (shm_open_fails fl); [by injection Hrun as <- <- <-|].
      destruct (ftruncate_fails fl); [by injection Hrun as <- <- <-|].
      destruct (mmap_fails fl).
      { rewrite cleanup_state in Hrun. by injection Hrun as <- <- <-. }
      destruct (construct zeroed); [discriminate Hrun|].
      rewrite cleanup_state in Hrun. by injection Hrun as <- <- <-.
  - destruct r.
    + destruct (open_true_state _ _ _ _ _ _ _ Hrun)
        as (fd & a & id & _ & _ & _ & _ & -> & ->).
      split; [done|]. cbn. rewrite lookup_insert_eq. by eexists.
    + destruct (valid_name_dec name) as [Hv|Hinv].
      2:{ rewrite open_invalid in Hrun by done. by injection Hrun as <- <-. }
      rewrite open_run in Hrun by done. cbv zeta in Hrun.
      destruct (shm_open_fails fl); [by injection Hrun as <- <- <-|].
      destruct (names os !! c_str name); [|by injection Hrun as <- <- <-].
      destruct (mmap_fails fl); [|discriminate Hrun].
      rewrite cleanup_state in Hrun. by injection Hrun as <- <- <-.
  - unfold bind, close, ret in Hrun.
    pose proof (cleanup_state sizeof_T h os) as Hst.
    destruct (cleanup sizeof_T (h, os)) as [[[] s1] e1].
    cbn [fst snd] in Hst. subst s1. by injection Hrun as <- <- <- <-.
Qed.

(** ** Sharing the record *)

(** X8. The creator and a container that opened the same name afterwards
    share one record: both read the same value, and a member store through
    either of them is what both read next. *)
Theorem store_seen_through_other_container
    fl fl2 name (h1 h1' h2 h2' : SharedState) (os os1 os2 : OS T) e1 e2
    (f : T → T) :
  create' fl name (h1, os) = (true, (h1', os1), e1) →
  open' fl2 name (h2, os1) = (true, (h2', os2), e2) →
  ∃ t0,
    deref h1' os2 = Some t0 ∧ deref h2' os2 = Some t0 ∧
    (∃ os3, store_through h1' f os2 = Some os3 ∧
            deref h1' os3 = Some (f t0) ∧ deref h2' os3 = Some (f t0)) ∧
    (∃ os3, store_through h2' f os2 = Some os3 ∧
            deref h1' os3 = Some (f t0) ∧ deref h2' os3 = Some (f t0)).
Proof.
  intros Hc Ho.
  destruct (create_true_state _ _ _ _ _ _ _ Hc)
    as (t & fd1 & a1 & id & Hv & _ & _ & _ & Ha1 & -> & ->).
  destruct (open_true_state _ _ _ _ _ _ _ Ho)
    as (fd2 & a2 & id' & _ & Hid & _ & Ha2 & -> & ->).
  cbn [names] in Hid. rewrite lookup_insert_eq in Hid. injection Hid as <-.
  cbn [mappings] in Ha2.
  assert (a1 ≠ a2) by (intros ->; by rewrite lookup_insert_eq in Ha2).
  exists t.
  unfold deref, load, store_through, mapped_object, write_object, set_objects.
  cbn [data_ptr_ names objects fds mappings].
  rewrite lookup_insert_eq, lookup_insert_ne, !lookup_insert_eq by done.
  cbn [fmap option_fmap option_map obj_data obj_size].
  split_and!; try done; eexists; (split; [reflexivity|]);
    cbn [data_ptr_ names objects fds mappings];
    rewrite lookup_insert_eq, lookup_insert_ne, !lookup_insert_eq by done;
    by rewrite lookup_alter_eq, lookup_insert_eq.
Qed.

(** X9. When the owner closes while another container is attached, that
    container keeps its mapping: it reads the record as before and can still
    store into it.  The name is gone, so every later [open()] of it fails. *)
Theorem opener_survives_owner_close
    fl fl2 name (h1 h1' h2 h2' h1'' : SharedState) (os os1 os2 os3 : OS T)
    e1 e2 e3 :
  create' fl name (h1, os) = (true, (h1', os1), e1) →
  open' fl2 name (h2, os1) = (true, (h2', os2), e2) →
  close' (h1', os2) = (tt, (h1'', os3), e3) →
  ∃ t0,
    deref h2' os2 = Some t0 ∧ deref h2' os3 = Some t0 ∧
    (∀ f, ∃ os4, store_through h2' f os3 = Some os4 ∧
                 deref h2' os4 = Some (f t0)) ∧
    names os3 !! c_str name = None ∧
    ∀ fl3 h3, (open' fl3 name (h3, os3)).1.1 = false.
Proof.
  intros Hc Ho Hcl.
  destruct (create_true_state _ _ _ _ _ _ _ Hc)
    as (t & fd1 & a1 & id & Hv & _ & _ & _ & Ha1 & -> & ->).
  destruct (open_true_state _ _ _ _ _ _ _ Ho)
    as (fd2 & a2 & id' & _ & Hid & _ & Ha2 & -> & ->).
  cbn [names] in Hid. rewrite lookup_insert_eq in Hid. injection Hid as <-.
  cbn [mappings] in Ha2.
  assert (a1 ≠ a2) by (intros ->; by rewrite lookup_insert_eq in Ha2).
  cbn [names objects fds mappings] in Hcl.
  match type of Hcl with
  | close _ (?h, ?o) = _ =>
      pose proof (close_attached_state h o fd1 a1 eq_refl eq_refl) as Hst
  end.
  rewrite Hcl in Hst. cbn [fst is_owner_ shm_name_ andb] in Hst.
  rewrite (valid_name_not_empty _ Hv) in Hst. cbn [negb] in Hst.
  injection Hst as -> ->. exists t.
  unfold deref, load, store_through, mapped_object, write_object, set_objects.
  cbn [data_ptr_ names objects fds mappings].
  rewrite lookup_delete_ne, !lookup_insert_eq by done.
  split_and!; try done.
  - intros f. eexists. split; [reflexivity|].
    cbn [data_ptr_ names objects fds mappings].
    rewrite lookup_delete_ne, lookup_insert_eq by done.
    by rewrite lookup_alter_eq, lookup_insert_eq.
  - apply lookup_delete_eq.
  - intros fl3 h3. rewrite open_run by done. cbv zeta. cbn [names].
    rewrite lookup_delete_eq. by destruct (shm_open_fails fl3).
Qed.

(** X10. A second [create()] of the same name from another container does
    not fail and does not share: the name moves to a new object, the first
    container keeps reading its own object, untouched by stores through the
    second, and both containers have the owner flag set.  When the first one
    is then closed it removes the name, which by now denotes the second
    one's object, and every later [open()] fails. *)
Theorem second_create_detaches
    fl fl2 name (h1 h1' h2 h2' h1'' : SharedState) (os os1 os2 os3 : OS T)
    e1 e2 e3 :
  create' fl name (h1, os) = (true, (h1', os1), e1) →
  create' fl2 name (h2, os1) = (true, (h2', os2), e2) →
  close' (h1', os2) = (tt, (h1'', os3), e3) →
  ∃ t0,
    deref h1' os2 = Some t0 ∧ deref h2' os2 = Some t0 ∧
    is_owner_ h1' = true ∧ is_owner_ h2' = true ∧
    mapped_object (data_ptr_ h1') os2 ≠ mapped_object (data_ptr_ h2') os2 ∧
    names os2 !! c_str name = mapped_object (data_ptr_ h2') os2 ∧
    (∀ f, ∃ os', store_through h2' f os2 = Some os' ∧
                 deref h2' os' = Some (f t0) ∧ deref h1' os' = Some t0) ∧
    names os3 !! c_str name = None ∧
    ∀ fl3 h3, (open' fl3 name (h3, os3)).1.1 = false.
Proof.
  intros Hc Hc2 Hcl.
  destruct (create_true_state _ _ _ _ _ _ _ Hc)
    as (t & fd1 & a1 & id & Hv & Hctor & _ & _ & Ha1 & -> & ->).
  destruct (create_true_state _ _ _ _ _ _ _ Hc2)
    as (t' & fd2 & a2 & id2 & _ & Hctor' & Hid2 & _ & Ha2 & -> & ->).
  rewrite Hctor in Hctor'. injection Hctor' as <-.
  cbn [names objects fds mappings] in *.
  assert (a1 ≠ a2) by (intros ->; by rewrite lookup_insert_eq in Ha2).
  assert (id ≠ id2) by (intros ->; by rewrite lookup_insert_eq in Hid2).
  match type of Hcl with
  | close _ (?h, ?o) = _ =>
      pose proof (close_attached_state h o fd1 a1 eq_refl eq_refl) as Hst
  end.
  rewrite Hcl in Hst. cbn [fst is_owner_ shm_name_ andb] in Hst.
  rewrite (valid_name_not_empty _ Hv) in Hst. cbn [negb] in Hst.
  injection Hst as -> ->. exists t.
  unfold deref, load, store_through, mapped_object, write_object, set_objects.
  cbn [data_ptr_ is_owner_ names objects fds mappings].
  rewrite !lookup_insert_eq, (lookup_insert_ne _ a2 a1) by done.
  rewrite lookup_insert_eq, (lookup_insert_ne _ id2 id) by done.
  rewrite lookup_insert_eq.
  split_and!; try done.
  - congruence.
  - intros f. eexists. split; [reflexivity|].
    cbn [data_ptr_ names objects fds mappings].
    rewrite !lookup_insert_eq, (lookup_insert_ne _ a2 a1) by done.
    rewrite lookup_insert_eq, lookup_alter_eq, lookup_alter_ne by done.
    rewrite lookup_insert_eq, (lookup_insert_ne _ id2 id) by done.
    by rewrite lookup_insert_eq.
  - apply lookup_delete_eq.
  - intros fl3 h3. rewrite open_run by done. cbv zeta. cbn [names].
    rewrite lookup_delete_eq. by destruct (shm_open_fails fl3).
Qed.

(** ** Attaching a container that is attached *)

(** X11. [create()] and [open()] do not release what the container holds.
    When they succeed on a container that holds a descriptor and a mapping,
    the container moves to a new descriptor and a new mapping, and the old
    ones stay open: they are still there after the container is closed. *)
Theorem reattach_leaks_previous
    c (h h' h'' : SharedState) (os os' os'' : OS T) fd a id e e' :
  attached_to h fd a id os →
  c ≠ Close →
  exec' c (h, os) = (true, (h', os'), e) →
  close' (h', os') = (tt, (h'', os''), e') →
  shm_fd_ h' ≠ Z.of_N fd ∧ data_ptr_ h' ≠ Z.pos a ∧
  shm_fd_ h'' = -1 ∧ data_ptr_ h'' = 0 ∧
  fds os'' !! fd = Some id ∧ mappings os'' !! a = Some id.
Proof.
  intros (_ & _ & Hfd & Ha) Hc Hrun Hcl.
  assert (∃ fd' a' own nm nms objs id',
            fds os !! fd' = None ∧ mappings os !! a' = None ∧
            h' = {| shm_fd_ := Z.of_N fd'; data_ptr_ := Z.pos a';
                    is_owner_ := own; shm_name_ := nm |} ∧
            os' = {| names := nms; objects := objs;
                     fds := <[fd':=id']> (fds os);
                     mappings := <[a':=id']> (mappings os) |})
    as (fd' & a' & own & nm & nms & objs & id' & Hfd' & Ha' & -> & ->).
  { destruct c as [fl name|fl name|]; [..|done]; cbn [exec] in Hrun.
    - destruct (create_true_state _ _ _ _ _ _ _ Hrun)
        as (t & fd' & a' & id' & _ & _ & _ & ? & ? & -> & ->).
      by eexists fd', a', _, _, _, _, id'.
    - destruct (open_true_state _ _ _ _ _ _ _ Hrun)
        as (fd' & a' & id' & _ & _ & ? & ? & -> & ->).
      by eexists fd', a', _, _, _, _, id'. }
  assert (fd' ≠ fd) by congruence. assert (a' ≠ a) by congruence.
  match type of Hcl with
  | close _ (?h, ?o) = _ =>
      pose proof (close_attached_state h o fd' a' eq_refl eq_refl) as Hst
  end.
  rewrite Hcl in Hst. cbn [fst] in Hst. injection Hst as -> ->.
  cbn [shm_fd_ data_ptr_ fds mappings].
  rewrite !lookup_delete_ne, !lookup_insert_ne by done.
  split_and!; try done.
  - intros [= ?%N2Z.inj]. done.
  - congruence.
Qed.

(** ** Failures on a container whose owner flag is set *)

(** X12. An [open()] that fails at the mapping step on a container whose
    owner flag is set removes the resource it was asked to open: [cleanup]
    unlinks [shm_name_], which by then is the name passed to [open()]. *)
Theorem owner_open_map_failure_unlinks
    fl name (h : SharedState) (os : OS T) id :
  is_owner_ h = true →
  valid_name name →
  shm_open_fails fl = false → mmap_fails fl = true →
  names os !! c_str name = Some id →
  ∃ h' os' evs,
    open' fl name (h, os) = (false, (h', os'), evs) ∧
    names os' = delete (c_str name) (names os) ∧
    objects os' = objects os ∧
    is_owner_ h' = true.
Proof.
  intros Hown Hv Hso Hmm Hid. rewrite open_run by done. cbv zeta.
  rewrite Hso, Hid, Hmm, cleanup_state.
  eexists _, _, _. split; [reflexivity|].
  rewrite cleanup_os_names, cleanup_os_objects.
  cbn [is_owner_ shm_name_ with_shm_fd with_shm_name names objects set_fds
       cleanup_handle].
  by rewrite Hown, (valid_name_not_empty _ Hv).
Qed.

(** X13. Take two names with one leading slash each that are not equal,
    so that they denote different objects.  After a successful [create()] of
    the first, an [open()] of the second that fails because the object cannot
    be opened leaves the owner flag set and records the second name.  The
    [close()] that follows unlinks the second name, leaves the created name
    and every other such name linked, and leaves the descriptor of the
    created object open. *)
Theorem owner_failed_open_redirects_close
    fl0 fl nameA nameB (h0 h h' h'' : SharedState) (os0 os os' os'' : OS T)
    r e0 e e' :
  single_slash (c_str nameA) →
  single_slash (c_str nameB) →
  create' fl0 nameA (h0, os0) = (true, (h, os), e0) →
  valid_name nameB →
  c_str nameB ≠ c_str nameA →
  shm_open_fails fl = true ∨ names os !! c_str nameB = None →
  open' fl nameB (h, os) = (r, (h', os'), e) →
  close' (h', os') = (tt, (h'', os''), e') →
  r = false ∧ os' = os ∧
  is_Some (names os'' !! c_str nameA) ∧
  names os'' !! c_str nameB = None ∧
  (∀ n, single_slash n → n ≠ c_str nameB →
        names os'' !! n = names os !! n) ∧
  ∃ fd, shm_fd_ h = Z.of_N fd ∧ is_Some (fds os'' !! fd).
Proof.
  intros _ _ Hc HvB Hne Hfail Ho Hcl.
  destruct (create_true_state _ _ _ _ _ _ _ Hc)
    as (t & fd1 & a1 & id & HvA & _ & _ & _ & _ & -> & ->).
  rewrite open_run in Ho by done. cbv zeta in Ho.
  assert (Hnone : (if shm_open_fails fl then None
                   else <[c_str nameA:=id]> (names os0) !! c_str nameB) = None).
  { destruct Hfail as [->|Hn]; [done|]. by destruct (shm_open_fails fl). }
  cbn [names] in Ho. rewrite Hnone in Ho. injection Ho as <- <- <- <-.
  pose proof (cleanup_state sizeof_T
                (with_shm_fd (-1)
                   (with_shm_name nameB
                      {| shm_fd_ := Z.of_N fd1; data_ptr_ := Z.pos a1;
                         is_owner_ := true; shm_name_ := nameA |}))
                {| names := <[c_str nameA:=id]> (names os0);
                   objects := <[id:={| obj_size := sizeof_T; obj_data := t |}]>
                                (objects os0);
                   fds := <[fd1:=id]> (fds os0);
                   mappings := <[a1:=id]> (mappings os0) |}) as Hst.
  unfold close in Hcl. rewrite Hcl in Hst. cbn [fst snd] in Hst.
  injection Hst as -> ->.
  rewrite cleanup_os_names, cleanup_os_fds.
  cbn [shm_fd_ is_owner_ shm_name_ with_shm_fd with_shm_name names fds andb].
  rewrite (valid_name_not_empty _ HvB). cbn [negb].
  change (-1 >=? 0) with false. cbv iota.
  split_and!; try done.
  - rewrite lookup_delete_ne, lookup_insert_eq by done. by eexists.
  - apply lookup_delete_eq.
  - intros n _ Hn. by rewrite lookup_delete_ne.
  - exists fd1. split; [done|]. rewrite lookup_insert_eq. by eexists.
Qed.

(** ** What the operations touch *)

(** The operating system a valid-name [create] leaves is, in each outcome,
    either the one with the name removed or one with the name linked to the
    new object. *)
Lemma create_names fl name (h : SharedState) (os : OS T) r h' os' e :
  valid_name name →
  create' fl name (h, os) = (r, (h', os'), e) →
  (names os' = delete (c_str name) (names os) ∨
   names os' = <[c_str name:=fresh (dom (objects os))]> (names os)) ∧
  (objects os' = objects os ∨
   ∃ o, objects os' = <[fresh (dom (objects os)):=o]> (objects os)).
Proof.
  intros Hv Hrun. rewrite create_run in Hrun by done. cbv zeta in Hrun.
  destruct (shm_open_fails fl).
  { injection Hrun as <- <- <- <-. split; left; done. }
  destruct (ftruncate_fails fl).
  { injection Hrun as <- <- <- <-. split; right; [done|by eexists]. }
  destruct (mmap_fails fl).
  { rewrite cleanup_state in Hrun. injection Hrun as <- <- <- <-.
    rewrite cleanup_os_names, cleanup_os_objects.
    cbn [is_owner_ shm_name_ with_shm_fd with_shm_name names objects set_fds
         os_allocated].
    split; [|right; by eexists].
    destruct (is_owner_ h && negb (str_empty name)); [left|right; done].
    by rewrite delete_insert_eq. }
  destruct (construct zeroed) as [t|t].
  { injection Hrun as <- <- <- <-. split; right; [done|by eexists]. }
  rewrite cleanup_state in Hrun. injection Hrun as <- <- <- <-.
  rewrite cleanup_os_names, cleanup_os_objects.
  cbn [is_owner_ shm_name_ with_shm_fd with_shm_name with_data_ptr names
       objects set_fds set_mappings os_allocated].
  split; [|right; by eexists].
  destruct (is_owner_ h && negb (str_empty name)); [left|right; done].
  by rewrite delete_insert_eq.
Qed.

(** X14. [create()] with a valid name always severs the name from the
    object it denoted, whether the call succeeds or fails at any step:
    afterwards the name is unlinked or denotes a new object, never the
    previous one. *)
Theorem create_severs_previous_object
    fl name (h : SharedState) (os : OS T) old r h' os' e :
  valid_name name →
  names os !! c_str name = Some old →
  is_Some (objects os !! old) →
  create' fl name (h, os) = (r, (h', os'), e) →
  names os' !! c_str name ≠ Some old ∧
  (shm_open_fails fl = true → names os' !! c_str name = None).
Proof.
  intros Hv Hold [o Ho] Hrun.
  pose proof (fresh_object_ne _ _ _ Ho) as Hfresh.
  split.
  - destruct (create_names _ _ _ _ _ _ _ _ Hv Hrun) as [[->| ->] _].
    + by rewrite lookup_delete_eq.
    + rewrite lookup_insert_eq. congruence.
  - intros Hso. rewrite create_run in Hrun by done. cbv zeta in Hrun.
    rewrite Hso in Hrun. injection Hrun as <- <- <- <-.
    cbn [names set_names]. apply lookup_delete_eq.
Qed.

(** X15. No call changes the size or the content of an object that
    exists.  And a call made with a name that has one leading slash touches
    no other such name: [create()] and [open()] only ever link or unlink the
    name they are given, [close()] only the name the container recorded
    last. *)
Theorem operations_frame c (h : SharedState) (os : OS T) r h' os' e :
  exec' c (h, os) = (r, (h', os'), e) →
  let own := c_str (match c with
                    | Create _ name | Open _ name => name
                    | Close => shm_name_ h
                    end) in
  objects os ⊆ objects os' ∧
  (single_slash own →
   ∀ n, single_slash n → n ≠ own → names os' !! n = names os !! n).
Proof.
  intros Hrun own.
  enough (objects os ⊆ objects os' ∧
          ∀ n, n ≠ own → names os' !! n = names os !! n) as [Hobj Hnames].
  { split; [exact Hobj|]. intros _ n _. apply Hnames. }
  subst own. destruct c as [fl name|fl name|]; cbn [exec] in Hrun.
  - destruct (valid_name_dec name) as [Hv|Hinv].
    2:{ rewrite create_invalid in Hrun by done. by injection Hrun as <- <- <- <-. }
    destruct (create_names _ _ _ _ _ _ _ _ Hv Hrun) as [Hn Ho]. split.
    + destruct Ho as [->|[o ->]]; [done|].
      apply insert_subseteq, fresh_object_None.
    + intros n Hne. destruct Hn as [->| ->].
      * by rewrite lookup_delete_ne.
      * by rewrite lookup_insert_ne.
  - destruct (valid_name_dec name) as [Hv|Hinv].
    2:{ rewrite open_invalid in Hrun by done. by injection Hrun as <- <- <- <-. }
    rewrite open_run in Hrun by done. cbv zeta in Hrun.
    destruct (shm_open_fails fl); [by injection Hrun as <- <- <- <-|].
    destruct (names os !! c_str name) as [idx|];
      [|by injection Hrun as <- <- <- <-].
    destruct (mmap_fails fl); [|by injection Hrun as <- <- <- <-].
    rewrite cleanup_state in Hrun. injection Hrun as <- <- <- <-.
    rewrite cleanup_os_names, cleanup_os_objects.
    cbn [is_owner_ shm_name_ with_shm_fd with_shm_name names objects set_fds].
    split; [done|]. intros n Hne.
    destruct (is_owner_ h && negb (str_empty name)); [|done].
    by rewrite lookup_delete_ne.
  - unfold bind, close, ret in Hrun.
    pose proof (cleanup_state sizeof_T h os) as Hst.
    destruct (cleanup sizeof_T (h, os)) as [[[] s1] e1].
    cbn [fst snd] in Hst. subst s1. injection Hrun as <- <- <- <-.
    rewrite cleanup_os_names, cleanup_os_objects.
    split; [done|]. intros n Hne.
    destruct (is_owner_ h && negb (str_empty (shm_name_ h))); [|done].
    by rewrite lookup_delete_ne.
Qed.

(** ** Round trips *)

(** X16. On a container that is not attached, [open()] followed by
    [close()] leaves the operating system exactly as it was and the container
    not attached, whether the [open()] succeeded or failed. *)
Theorem open_close_round_trip
    fl name (h h' h'' : SharedState) (os os' os'' : OS T) r e e' :
  unattached h →
  open' fl name (h, os) = (r, (h', os'), e) →
  close' (h', os') = (tt, (h'', os''), e') →
  os'' = os ∧ unattached h''.
Proof.
  intros Hun Ho Hcl.
  assert (Hfail : ∀ hx, unattached hx → close' (hx, os) = (tt, (h'', os''), e') →
                        os'' = os ∧ unattached h'').
  { intros hx Hx Hc. rewrite close_unattached in Hc by done.
    by injection Hc as <- <- <-. }
  destruct (valid_name_dec name) as [Hv|Hinv].
  2:{ rewrite open_invalid in Ho by done. injection Ho as <- <- <- <-.
      by eapply Hfail. }
  pose proof (unattached_with_name name h Hun) as Hun1.
  destruct r.
  - destruct (open_true_state _ _ _ _ _ _ _ Ho)
      as (fd & a & id & _ & _ & Hfd & Ha & -> & ->).
    match type of Hcl with
    | close _ (?h, ?o) = _ =>
        pose proof (close_attached_state h o fd a eq_refl eq_refl) as Hst
    end.
    rewrite Hcl in Hst. cbn [fst is_owner_ andb names objects fds mappings] in Hst.
    injection Hst as -> ->. split; [|done].
    rewrite !delete_insert_id by done. by destruct os.
  - rewrite open_run in Ho by done. cbv zeta in Ho.
    destruct (shm_open_fails fl).
    { injection Ho as <- <- <-. eapply Hfail; [|done].
      by apply unattached_with_fd. }
    destruct (names os !! c_str name).
    2:{ injection Ho as <- <- <-. eapply Hfail; [|done].
        by apply unattached_with_fd. }
    destruct (mmap_fails fl); [|discriminate Ho].
    rewrite (unattached_cleanup_fd sizeof_T) in Ho;
      [|done|apply fresh_fd_None].
    injection Ho as <- <- <-. eapply Hfail; [|done].
    by apply unattached_with_fd.
Qed.

(** X17. A successful [create()] followed by [close()] leaves no name, no
    descriptor and no mapping of the container behind: the name is unlinked
    and the descriptor and mapping tables are as before the [create()].
    The closed container keeps its owner flag and its name; an [open()] of
    the name then fails. *)
Theorem create_close_round_trip
    fl name (h h' h'' : SharedState) (os os' os'' : OS T) e e' :
  create' fl name (h, os) = (true, (h', os'), e) →
  close' (h', os') = (tt, (h'', os''), e') →
  names os'' = delete (c_str name) (names os) ∧
  fds os'' = fds os ∧ mappings os'' = mappings os ∧
  h'' = {| shm_fd_ := -1; data_ptr_ := 0; is_owner_ := true;
           shm_name_ := name |} ∧
  ∀ fl2 h2, (open' fl2 name (h2, os'')).1.1 = false.
Proof.
  intros Hc Hcl.
  destruct (create_true_state _ _ _ _ _ _ _ Hc)
    as (t & fd & a & id & Hv & _ & _ & Hfd & Ha & -> & ->).
  match type of Hcl with
  | close _ (?h, ?o) = _ =>
      pose proof (close_attached_state h o fd a eq_refl eq_refl) as Hst
  end.
  rewrite Hcl in Hst.
  cbn [fst is_owner_ shm_name_ andb names objects fds mappings] in Hst.
  rewrite (valid_name_not_empty _ Hv) in Hst. cbn [negb] in Hst.
  injection Hst as -> ->. cbn [names fds mappings].
  rewrite delete_insert_eq, !delete_insert_id by done.
  split_and!; try done.
  intros fl2 h2. rewrite open_run by done. cbv zeta. cbn [names].
  rewrite lookup_delete_eq. by destruct (shm_open_fails fl2).
Qed.

(** ** The recorded name *)

Lemma exec_name c (h : SharedState) (os : OS T) r h' os' e :
  exec' c (h, os) = (r, (h', os'), e) →
  (shm_name_ h' = shm_name_ h ∧ is_owner_ h' = is_owner_ h) ∨
  valid_name (shm_name_ h').
Proof.
  intros Hrun. destruct c as [fl name|fl name|]; cbn [exec] in Hrun.
  - destruct (valid_name_dec name) as [Hv|Hinv].
    2:{ rewrite create_invalid in Hrun by done. injection Hrun as <- <- <- <-.
        by left. }
    right. rewrite create_run in Hrun by done. cbv zeta in Hrun.
    destruct (shm_open_fails fl); [by injection Hrun as <- <- <- <-|].
    destruct (ftruncate_fails fl); [by injection Hrun as <- <- <- <-|].
    destruct (mmap_fails fl).
    { rewrite cleanup_state in Hrun. by injection Hrun as <- <- <- <-. }
    destruct (construct zeroed); [by injection Hrun as <- <- <- <-|].
    rewrite cleanup_state in Hrun. by injection Hrun as <- <- <- <-.
  - destruct (valid_name_dec name) as [Hv|Hinv].
    2:{ rewrite open_invalid in Hrun by done. injection Hrun as <- <- <- <-.
        by left. }
    right. rewrite open_run in Hrun by done. cbv zeta in Hrun.
    destruct (shm_open_fails fl); [by injection Hrun as <- <- <- <-|].
    destruct (names os !! c_str name); [|by injection Hrun as <- <- <- <-].
    destruct (mmap_fails fl); [|by injection Hrun as <- <- <- <-].
    rewrite cleanup_state in Hrun. by injection Hrun as <- <- <- <-.
  - left. unfold bind, close, ret in Hrun.
    pose proof (cleanup_state sizeof_T h os) as Hst.
    destruct (cleanup sizeof_T (h, os)) as [[[] s1] e1].
    cbn [fst snd] in Hst. subst s1. by injection Hrun as <- <- <- <-.
Qed.

(** X18. Along every history of a container, the recorded name is either
    still the empty one of a new container, with the owner flag clear, or a
    valid name.  So wherever the owner flag is set the name is valid and not
    empty, and the test for an empty name in [cleanup] never keeps an owner
    from unlinking. *)
Theorem owner_has_valid_name hist (h : SharedState) :
  reachable sizeof_T zeroed construct hist h →
  ((shm_name_ h = EmptyString ∧ is_owner_ h = false) ∨
   valid_name (shm_name_ h)) ∧
  (is_owner_ h = true →
   valid_name (shm_name_ h) ∧ str_empty (shm_name_ h) = false).
Proof.
  intros Hreach.
  assert (Hinv : (shm_name_ h = EmptyString ∧ is_owner_ h = false) ∨
                 valid_name (shm_name_ h)).
  { induction Hreach as [|hist h c os r h' os' evs Hreach IH Hexec].
    - by left.
    - destruct (exec_name _ _ _ _ _ _ _ Hexec) as [[Hn Ho]|Hv]; [|by right].
      rewrite Hn, Ho. exact IH. }
  split; [exact Hinv|]. intros Hown.
  destruct Hinv as [[_ Hno]|Hv]; [congruence|].
  split; [done|]. by apply valid_name_not_empty.
Qed.

End More.

End IPCMore.

(** ** The properties on the device configuration container *)

Module IPCMoreRuns.
Import Layout Posix Access IPCFacts IPCMore.

Local Abbreviation name := DEVICE_CONFIG_SHM_NAME.
Local Abbreviation size := sizeof_DeviceConfigTable.
Local Abbreviation zero := DeviceConfigTable_zero.
Local Abbreviation ctor := DeviceConfigTable_construct.
Local Abbreviation os0 := (@empty_OS DeviceConfigTable).

Lemma isInitialized_tracks_attachment_witness :
  isInitialized created.1.2.1 = true.
Proof.
  destruct (isInitialized_tracks_attachment size zero ctor
              (Create no_faults name) SharedState_new os0 true
              created.1.2.1 created.1.2.2 created.2) as [_ [Hinit _]].
  - vm_compute. reflexivity.
  - exact Hinit.
Defined.

Lemma store_seen_through_other_container_witness :
  ∃ os3, store_through created.1.2.1 publish opened.1.2.2 = Some os3 ∧
         ready <$> deref opened.1.2.1 os3 = Some true.
Proof.
  destruct (store_seen_through_other_container size zero ctor
              no_faults no_faults name
              SharedState_new created.1.2.1 SharedState_new opened.1.2.1
              os0 created.1.2.2 opened.1.2.2 created.2 opened.2 publish)
    as (t0 & _ & _ & (os3 & Hstore & _ & Hread) & _).
  - vm_compute. reflexivity.
  - vm_compute. reflexivity.
  - exists os3. split; [exact Hstore|]. rewrite Hread. reflexivity.
Defined.

Lemma opener_survives_owner_close_witness :
  deref opened.1.2.1 owner_closed.1.2.2
  = Some (DeviceConfigTable_ctor DeviceConfigTable_zero) ∧
  names owner_closed.1.2.2 !! name = None.
Proof.
  destruct (opener_survives_owner_close size zero ctor
              no_faults no_faults name
              SharedState_new created.1.2.1 SharedState_new opened.1.2.1
              owner_closed.1.2.1
              os0 created.1.2.2 opened.1.2.2 owner_closed.1.2.2
              created.2 opened.2 owner_closed.2)
    as (t0 & Hbefore & Hafter & _ & Hname & _).
  - vm_compute. reflexivity.
  - vm_compute. reflexivity.
  - vm_compute. reflexivity.
  - split; [|exact Hname]. rewrite Hafter, <- Hbefore. reflexivity.
Defined.

Lemma second_create_detaches_witness :
  is_owner_ created.1.2.1 = true ∧ is_owner_ recreated.1.2.1 = true ∧
  names first_owner_closed.1.2.2 !! name = None.
Proof.
  destruct (second_create_detaches size zero ctor
              no_faults no_faults name
              SharedState_new created.1.2.1 SharedState_new recreated.1.2.1
              first_owner_closed.1.2.1
              os0 created.1.2.2 recreated.1.2.2 first_owner_closed.1.2.2
              created.2 recreated.2 first_owner_closed.2)
    as (t0 & _ & _ & Hown1 & Hown2 & _ & _ & _ & Hname & _).
  - vm_compute. reflexivity.
  - vm_compute. reflexivity.
  - vm_compute. reflexivity.
  - split; [exact Hown1|]. split; [exact Hown2 | exact Hname].
Defined.

Lemma reattach_leaks_previous_witness :
  attached_to created.1.2.1 0%N 1%positive 0%nat created.1.2.2 ∧
  fds reopened_closed.1.2.2 !! 0%N = Some 0%nat ∧
  mappings reopened_closed.1.2.2 !! 1%positive = Some 0%nat.
Proof.
  assert (Hatt : attached_to created.1.2.1 0%N 1%positive 0%nat created.1.2.2).
  { repeat split; vm_compute; reflexivity. }
  destruct (reattach_leaks_previous size zero ctor (Open no_faults name)
              created.1.2.1 reopened.1.2.1 reopened_closed.1.2.1
              created.1.2.2 reopened.1.2.2 reopened_closed.1.2.2
              0%N 1%positive 0%nat reopened.2 reopened_closed.2)
    as (_ & _ & _ & _ & Hfd & Hmap).
  - exact Hatt.
  - discriminate.
  - vm_compute. reflexivity.
  - vm_compute. reflexivity.
  - split; [exact Hatt|]. split; [exact Hfd | exact Hmap].
Defined.

Lemma owner_open_map_failure_unlinks_witness :
  ∃ h' os' evs,
    DeviceConfigTable_open map_fails name (created.1.2.1, created.1.2.2)
    = (false, (h', os'), evs) ∧
    names os' !! name = None.
Proof.
  destruct (owner_open_map_failure_unlinks size zero map_fails name
              created.1.2.1 created.1.2.2 0%nat)
    as (h' & os' & evs & Hrun & Hnames & _).
  - reflexivity.
  - split; [discriminate | reflexivity].
  - reflexivity.
  - reflexivity.
  - vm_compute. reflexivity.
  - exists h', os', evs. split; [exact Hrun|].
    rewrite Hnames. apply lookup_delete_eq.
Defined.

Lemma owner_failed_open_redirects_close_witness :
  other_open_failed.1.1 = false ∧
  is_Some (names other_open_failed_closed.1.2.2 !! name).
Proof.
  destruct (owner_failed_open_redirects_close size zero ctor
              no_faults no_faults name SOUND_SHM_NAME
              SharedState_new created.1.2.1 other_open_failed.1.2.1
              other_open_failed_closed.1.2.1
              os0 created.1.2.2 other_open_failed.1.2.2
              other_open_failed_closed.1.2.2
              other_open_failed.1.1 created.2 other_open_failed.2
              other_open_failed_closed.2)
    as (Hr & _ & Hlinked & _).
  - exists "gr_device_config". split; [reflexivity|].
    intros H. vm_compute in H. discriminate H.
  - exists "sound_ipc_shm". split; [reflexivity|].
    intros H. vm_compute in H. discriminate H.
  - vm_compute. reflexivity.
  - split; [discriminate | reflexivity].
  - discriminate.
  - right. vm_compute. reflexivity.
  - vm_compute. reflexivity.
  - vm_compute. reflexivity.
  - split; [exact Hr | exact Hlinked].
Defined.

Lemma create_severs_previous_object_witness :
  names created.1.2.2 !! name = Some 0%nat ∧
  recreate_unsized.1.1 = false ∧
  names recreate_unsized.1.2.2 !! name ≠ Some 0%nat.
Proof.
  assert (Hold : names created.1.2.2 !! name = Some 0%nat)
    by (vm_compute; reflexivity).
  destruct (create_severs_previous_object size zero ctor sized_fails name
              SharedState_new created.1.2.2 0%nat
              recreate_unsized.1.1 recreate_unsized.1.2.1
              recreate_unsized.1.2.2 recreate_unsized.2) as [Hsevered _].
  - split; [discriminate | reflexivity].
  - exact Hold.
  - eexists. vm_compute. reflexivity.
  - vm_compute. reflexivity.
  - split; [exact Hold|]. split; [reflexivity | exact Hsevered].
Defined.

Lemma operations_frame_witness :
  objects created.1.2.2 ⊆ objects recreated.1.2.2 ∧
  names recreated.1.2.2 !! SOUND_SHM_NAME
  = names created.1.2.2 !! SOUND_SHM_NAME.
Proof.
  destruct (operations_frame size zero ctor (Create no_faults name)
              SharedState_new created.1.2.2 true
              recreated.1.2.1 recreated.1.2.2 recreated.2) as [Hobj Hnames].
  - vm_compute. reflexivity.
  - split; [exact Hobj|]. apply Hnames.
    + exists "gr_device_config". split; [reflexivity|].
      intros H. vm_compute in H. discriminate H.
    + exists "sound_ipc_shm". split; [reflexivity|].
      intros H. vm_compute in H. discriminate H.
    + discriminate.
Defined.

Lemma open_close_round_trip_witness :
  opened.1.1 = true ∧ opened_closed.1.2.2 = created.1.2.2.
Proof.
  destruct (open_close_round_trip size zero no_faults name
              SharedState_new opened.1.2.1 opened_closed.1.2.1
              created.1.2.2 opened.1.2.2 opened_closed.1.2.2
              opened.1.1 opened.2 opened_closed.2) as [Hos _].
  - repeat split.
  - vm_compute. reflexivity.
  - vm_compute. reflexivity.
  - split; [reflexivity | exact Hos].
Defined.

Lemma create_close_round_trip_witness :
  names created_closed.1.2.2 = ∅ ∧ fds created_closed.1.2.2 = ∅ ∧
  mappings created_closed.1.2.2 = ∅.
Proof.
  destruct (create_close_round_trip size zero ctor no_faults name
              SharedState_new created.1.2.1 created_closed.1.2.1
              os0 created.1.2.2 created_closed.1.2.2
              created.2 created_closed.2)
    as (Hnames & Hfds & Hmaps & _).
  - vm_compute. reflexivity.
  - vm_compute. reflexivity.
  - rewrite Hnames, Hfds, Hmaps. repeat split; try apply delete_empty.
Defined.

Lemma owner_has_valid_name_witness :
  valid_name (shm_name_ created.1.2.1).
Proof.
  refine (proj1 (proj2 (owner_has_valid_name size zero ctor
                          [(Create no_faults name, true)] created.1.2.1 _) _)).
  - apply (reachable_call _ _ _ [] SharedState_new (Create no_faults name)
             os0 true created.1.2.1 created.1.2.2 created.2).
    + apply reachable_new.
    + vm_compute. reflexivity.
  - reflexivity.
Defined.

End IPCMoreRuns.

(** ** The queue of natural numbers *)

Module SafeQueueRuns.
Import SafeQueue SafeQueueFacts.

Lemma pop_returns_pushed_in_order_witness :
  pop_n 0%nat 2 (push_all [1; 2; 3]%nat SafeQueue_new)
  = Some ([1; 2]%nat, {| queue_ := [3%nat]; running_ := true |}).
Proof.
  rewrite (pop_returns_pushed_in_order 0%nat SafeQueue_new [1; 2; 3]%nat 2).
  - reflexivity.
  - simpl. lia.
Defined.

Lemma pop_waits_iff_running_and_short_witness :
  pop_n 0%nat 1 (@SafeQueue_new nat) = None.
Proof.
  apply (proj1 (pop_waits_iff_running_and_short 0%nat SafeQueue_new 1)).
  split; [reflexivity | simpl; lia].
Defined.

End SafeQueueRuns.
